(** * pcomb_py: a parser-combinator engine (comb.py)

    A shallow embedding of [comb.py] and the properties of its cursor,
    span, combinators and primitive constructors.

    Conventions of the embedding.
    - A Python [str] is a [string]; a Python [int] is a [Z].  A slice
      [t[a:b]] follows Python's rules for negative and out-of-range bounds
      ([str_slice]).
    - Python objects that parsers produce or receive are the type [value].
    - What a parser returns is a [result]: [None], [False] (the value the
      source's [negate] returns), or a pair [(x, s)].
    - A Python call may return, raise, or run for ever: [outcome].  The two
      [while] loops of the source take a bound on their number of rounds (the
      [nat] a [Parser] receives); [Timeout] says the bound was reached. *)

From Stdlib Require Import ZArith List String Ascii Bool Lia.
Import ListNotations.
Local Open Scope string_scope.
Local Open Scope Z_scope.

Set Implicit Arguments.
Set Warnings "-register-all".

(* ================================================================== *)
(** ** Exceptions and outcomes *)

Inductive exn : Type :=
| TypeError
| ValueError
| IndexError
| AttributeError.

Inductive outcome (A : Type) : Type :=
| Ret (a : A)
| Raise (e : exn)
| Timeout.

Arguments Ret {A} a.
Arguments Raise {A} e.
Arguments Timeout {A}.

Definition bind {A B : Type} (c : outcome A) (k : A -> outcome B) : outcome B :=
  match c with
  | Ret a => k a
  | Raise e => Raise e
  | Timeout => Timeout
  end.

Declare Scope outcome_scope.
Delimit Scope outcome_scope with outcome.
Notation "x <- c ;; k" := (bind c (fun x => k))
  (at level 61, c at next level, right associativity) : outcome_scope.
Local Open Scope outcome_scope.

(* ================================================================== *)
(** ** Python strings and slices *)

(** [len(t)] *)
Definition len (t : string) : Z := Z.of_nat (String.length t).

(** A slice bound [k] of a sequence of length [n], as Python adjusts it:
    a negative bound counts from the end, and both are clamped to [0, n]. *)
Definition slice_index (n k : Z) : Z :=
  if k <? 0 then Z.max 0 (k + n) else Z.min k n.

(** [t[a:b]] *)
Definition str_slice (t : string) (a b : Z) : string :=
  let lo := slice_index (len t) a in
  let hi := slice_index (len t) b in
  substring (Z.to_nat lo) (Z.to_nat (hi - lo)) t.

(** The characters Python's [str.isspace] accepts, among the code points
    below 256: TAB, LF, VT, FF, CR, the separators FS, GS, RS, US, the
    space, NEL (133) and the no-break space (160). *)
Definition char_isspace (c : ascii) : bool :=
  let n := Z.of_nat (nat_of_ascii c) in
  ((9 <=? n) && (n <=? 13)) || ((28 <=? n) && (n <=? 32))
  || (n =? 133) || (n =? 160).

Fixpoint str_all (f : ascii -> bool) (t : string) : bool :=
  match t with
  | EmptyString => true
  | String c t' => f c && str_all f t'
  end.

(** [t.isspace()]: at least one character, and all of them whitespace. *)
Definition str_isspace (t : string) : bool :=
  match t with
  | EmptyString => false
  | _ => str_all char_isspace t
  end.

(** The one-character strings of [t], as iterating a [str] yields them. *)
Fixpoint str_chars (t : string) : list string :=
  match t with
  | EmptyString => []
  | String c t' => String c EmptyString :: str_chars t'
  end.

(* ================================================================== *)
(** ** Input (the cursor) and Span *)

Record Input : Type := mkInput { Input_s : string; Input_i : Z }.

Record Span : Type := mkSpan { Span_s : string; Span_i : Z; Span_j : Z }.

(** [Input.__bool__] *)
Definition Input__bool__ (self : Input) : bool :=
  Input_i self <? len (Input_s self).

(** [Input.curr] *)
Definition Input_curr (self : Input) (n : Z) : string :=
  str_slice (Input_s self) (Input_i self) (Input_i self + n).

(** [Input.advance] *)
Definition Input_advance (self : Input) (n : Z) : Input :=
  mkInput (Input_s self) (Input_i self + n).

(** [Span.content] *)
Definition Span_content (self : Span) : string :=
  str_slice (Span_s self) (Span_i self) (Span_j self).

(* ================================================================== *)
(** ** Python values *)

Inductive value : Type :=
| VNone
| VBool (b : bool)
| VInt (z : Z)
| VStr (t : string)
| VTuple (l : list value)
| VList (l : list value)
| VSpan (sp : Span)
| VInput (c : Input).

(** Truth value of an object, as [if], [not], [and], [or] take it. *)
Definition truthy (v : value) : bool :=
  match v with
  | VNone => false
  | VBool b => b
  | VInt z => negb (z =? 0)
  | VStr t => negb (len t =? 0)
  | VTuple l | VList l => negb (Z.of_nat (List.length l) =? 0)
  | VSpan _ => true
  | VInput c => Input__bool__ c
  end.

(** The builtin [len]. *)
Definition py_len (v : value) : outcome value :=
  match v with
  | VStr t => Ret (VInt (len t))
  | VTuple l | VList l => Ret (VInt (Z.of_nat (List.length l)))
  | _ => Raise TypeError
  end.

(** [l[i]] on a sequence whose items are [l]. *)
Definition seq_item {A : Type} (l : list A) (i : Z) : outcome A :=
  let n := Z.of_nat (List.length l) in
  let k := if i <? 0 then i + n else i in
  if (0 <=? k) && (k <? n)
  then match nth_error l (Z.to_nat k) with
       | Some a => Ret a
       | None => Raise IndexError
       end
  else Raise IndexError.

(** [x[i]] for an integer [i]. *)
Definition py_getitem (x : value) (i : Z) : outcome value :=
  match x with
  | VTuple l | VList l => seq_item l i
  | VStr t => c <- seq_item (str_chars t) i ;; Ret (VStr c)
  | _ => Raise TypeError
  end.

(** The items of [x] as [*x] unpacks them. *)
Definition py_iter (x : value) : outcome (list value) :=
  match x with
  | VTuple l | VList l => Ret l
  | VStr t => Ret (List.map VStr (str_chars t))
  | _ => Raise TypeError
  end.

(** [str.isspace] called as a function of one argument. *)
Definition py_str_isspace (x : value) : outcome value :=
  match x with
  | VStr t => Ret (VBool (str_isspace t))
  | _ => Raise TypeError
  end.

(** [Input.span]: the attribute [other.i] is read whatever [other] is. *)
Definition Input_span (self : Input) (other : value) : outcome Span :=
  match other with
  | VInput c => Ret (mkSpan (Input_s self) (Input_i self) (Input_i c))
  | VSpan sp => Ret (mkSpan (Input_s self) (Input_i self) (Span_i sp))
  | _ => Raise AttributeError
  end.

(** [Span.span] *)
Definition Span_span (self : Span) (other : value) : outcome Span :=
  match other with
  | VSpan sp =>
      Ret (mkSpan (Span_s self) (Z.min (Span_i self) (Span_i sp))
                  (Z.max (Span_j self) (Span_j sp)))
  | VInput c =>
      Ret (mkSpan (Span_s self) (Z.min (Span_i self) (Input_i c))
                  (Z.max (Span_j self) (Input_i c)))
  | _ => Raise TypeError
  end.

(* ================================================================== *)
(** ** Parser *)

(** What a parser function returns: [None], [False], or the pair
    [(x, s)] of a value and a cursor. *)
Inductive result : Type :=
| RNone
| RFalse
| ROk (x : value) (s : Input).

(** Truth value of a returned object: a pair is a non-empty tuple. *)
Definition result_truthy (r : result) : bool :=
  match r with
  | ROk _ _ => true
  | RNone | RFalse => false
  end.

(** A [Parser] wraps a function [f] of a cursor.  The [nat] bounds the
    rounds of each [while] loop that runs under the call. *)
Definition Parser : Type := nat -> Input -> outcome result.

(** A user function of one argument ([map], [pred]) and of unpacked
    positional arguments ([map_star]). *)
Definition pyfun : Type := value -> outcome value.
Definition pyfun_star : Type := list value -> outcome value.

(** The argument of [Parser.__call__]. *)
Inductive call_arg : Type :=
| ArgNone
| ArgStr (t : string)
| ArgInput (s : Input).

(** [Parser.__call__]; [line] is the line [input()] reads when no argument
    is given.  Inside the combinators every call [self(s)] passes a cursor,
    and is written [self fuel s]. *)
Definition Parser__call__ (self : Parser) (line : string) (s : call_arg)
    (fuel : nat) : outcome result :=
  match s with
  | ArgNone => self fuel (mkInput line 0)
  | ArgStr t => self fuel (mkInput t 0)
  | ArgInput c => self fuel c
  end.

(** [tag] *)
Definition tag (m : string) : Parser :=
  fun _ s =>
    if String.eqb (Input_curr s (len m)) m
    then Ret (ROk (VStr m) (Input_advance s (len m)))
    else Ret RNone.

(** What is passed where a parser is expected: a [Parser], another
    callable, or any other object. *)
Inductive operand : Type :=
| OParser (p : Parser)
| OCallable (f : nat -> Input -> outcome result)
| OValue (v : value).

(** [parser] *)
Definition parser (other : operand) : outcome Parser :=
  match other with
  | OParser p => Ret p
  | OCallable f => Ret f
  | OValue (VStr m) => Ret (tag m)
  | OValue _ => Raise TypeError
  end.

(** [Parser.__add__] and its [parse] *)
Definition add_parse (self other : Parser) : Parser :=
  fun fuel s =>
    r <- self fuel s ;;
    if result_truthy r then Ret r else other fuel s.

Definition Parser__add__ (self : Parser) (other : operand) : outcome Parser :=
  other <- parser other ;;
  Ret (add_parse self other).

(** [Parser.__radd__] *)
Definition Parser__radd__ (self : Parser) (other : operand) : outcome Parser :=
  other <- parser other ;;
  Parser__add__ other (OParser self).

(** [Parser.__mul__] and its [parse] *)
Definition mul_parse (self other : Parser) : Parser :=
  fun fuel s =>
    r <- self fuel s ;;
    match r with
    | ROk x s =>
        r <- other fuel s ;;
        match r with
        | ROk y s => Ret (ROk (VTuple [x; y]) s)
        | _ => Ret RNone
        end
    | _ => Ret RNone
    end.

Definition Parser__mul__ (self : Parser) (other : operand) : outcome Parser :=
  other <- parser other ;;
  Ret (mul_parse self other).

(** [Parser.__rmul__] *)
Definition Parser__rmul__ (self : Parser) (other : operand) : outcome Parser :=
  other <- parser other ;;
  Parser__mul__ other (OParser self).

(** [seq]: [ps = list(map(parser, ps))], then the [parse] whose [for] loop
    tests [is not None] before unpacking. *)
Fixpoint map_parser (ps : list operand) : outcome (list Parser) :=
  match ps with
  | [] => Ret []
  | p :: ps' =>
      q <- parser p ;;
      qs <- map_parser ps' ;;
      Ret (q :: qs)
  end.

Fixpoint seq_loop (ps : list Parser) (fuel : nat) (xs : list value) (s : Input)
  : outcome result :=
  match ps with
  | [] => Ret (ROk (VTuple xs) s)
  | p :: ps' =>
      r <- p fuel s ;;
      match r with
      | RNone => Ret RNone
      | RFalse => Raise TypeError
      | ROk x s => seq_loop ps' fuel (xs ++ [x]) s
      end
  end.

Definition seq_parse (ps : list Parser) : Parser :=
  fun fuel s => seq_loop ps fuel [] s.

Definition seq (ps : list operand) : outcome Parser :=
  ps <- map_parser ps ;;
  Ret (seq_parse ps).

(** [Parser.__pow__]; a [bool] is an [int] for [isinstance]. *)
Definition Parser__pow__ (self : Parser) (n : value) : outcome Parser :=
  match n with
  | VInt z =>
      if z >=? 0 then seq (repeat (OParser self) (Z.to_nat z))
      else Raise ValueError
  | VBool b => seq (repeat (OParser self) (if b then 1%nat else 0%nat))
  | _ => Raise TypeError
  end.

(** [Parser.__getitem__] and its [parse] *)
Fixpoint getitem_loop (self other : Input -> outcome result) (fuel : nat)
    (xs ys : list value) (s : Input) : outcome result :=
  match fuel with
  | O => Timeout
  | S fuel' =>
      r <- self s ;;
      match r with
      | ROk x s =>
          r <- other s ;;
          match r with
          | ROk y s => getitem_loop self other fuel' (xs ++ [x]) (ys ++ [y]) s
          | _ => Ret (ROk (VTuple [VList (xs ++ [x]); VList ys]) s)
          end
      | _ => Ret (ROk (VTuple [VList xs; VList ys]) s)
      end
  end.

Definition getitem_parse (self other : Parser) : Parser :=
  fun fuel s => getitem_loop (self fuel) (other fuel) fuel [] [] s.

Definition Parser__getitem__ (self : Parser) (other : operand)
  : outcome Parser :=
  other <- parser other ;;
  Ret (getitem_parse self other).

(** [Parser.map] *)
Definition Parser_map (self : Parser) (f : pyfun) : Parser :=
  fun fuel s =>
    r <- self fuel s ;;
    match r with
    | ROk x s => y <- f x ;; Ret (ROk y s)
    | _ => Ret RNone
    end.

(** [Parser.map_star] *)
Definition Parser_map_star (self : Parser) (f : pyfun_star) : Parser :=
  fun fuel s =>
    r <- self fuel s ;;
    match r with
    | ROk x s => args <- py_iter x ;; y <- f args ;; Ret (ROk y s)
    | _ => Ret RNone
    end.

(** [Parser.pred] *)
Definition Parser_pred (self : Parser) (p : pyfun) : Parser :=
  fun fuel s =>
    r <- self fuel s ;;
    match r with
    | ROk x s1 =>
        b <- p x ;;
        if truthy b then Ret (ROk x s1) else Ret RNone
    | _ => Ret RNone
    end.

(** [Parser.index], [Parser.left], [Parser.right] *)
Definition Parser_index (self : Parser) (i : Z) : Parser :=
  Parser_map self (fun x => py_getitem x i).

Definition Parser_left (self : Parser) : Parser := Parser_index self 0.

Definition Parser_right (self : Parser) : Parser := Parser_index self 1.

(** [Parser.__lshift__], [Parser.__rlshift__] *)
Definition Parser__lshift__ (self : Parser) (other : operand)
  : outcome Parser :=
  q <- Parser__mul__ self other ;;
  Ret (Parser_left q).

Definition Parser__rlshift__ (self : Parser) (other : operand)
  : outcome Parser :=
  other <- parser other ;;
  Parser__lshift__ other (OParser self).

(** [Parser.__rshift__], [Parser.__rrshift__] *)
Definition Parser__rshift__ (self : Parser) (other : operand)
  : outcome Parser :=
  q <- Parser__mul__ self other ;;
  Ret (Parser_right q).

Definition Parser__rrshift__ (self : Parser) (other : operand)
  : outcome Parser :=
  other <- parser other ;;
  Parser__rshift__ other (OParser self).

(** [Parser.optional] *)
Definition Parser_optional (self : Parser) : Parser :=
  fun fuel s =>
    r <- self fuel s ;;
    if result_truthy r then Ret r else Ret (ROk VNone s).

(** [Parser.many0] and its [while] loop *)
Fixpoint many0_loop (self : Input -> outcome result) (fuel : nat)
    (xs : list value) (s : Input) : outcome result :=
  match fuel with
  | O => Timeout
  | S fuel' =>
      r <- self s ;;
      match r with
      | ROk x s => many0_loop self fuel' (xs ++ [x]) s
      | _ => Ret (ROk (VList xs) s)
      end
  end.

Definition Parser_many0 (self : Parser) : Parser :=
  fun fuel s => many0_loop (self fuel) fuel [] s.

(** [Parser.many1] *)
Definition Parser_many1 (self : Parser) : Parser :=
  Parser_pred (Parser_many0 self) py_len.

(** [Parser.spanned] *)
Definition Parser_spanned (self : Parser) : Parser :=
  fun fuel s =>
    r <- self fuel s ;;
    match r with
    | ROk x s1 =>
        span <- Input_span s (VInput s1) ;;
        Ret (ROk (VTuple [x; VSpan span]) s1)
    | _ => Ret RNone
    end.

(** [Parser.span] *)
Definition Parser_span (self : Parser) : Parser :=
  Parser_right (Parser_spanned self).

(** [Parser.stringed] *)
Definition Parser_stringed (self : Parser) : Parser :=
  fun fuel s =>
    r <- self fuel s ;;
    match r with
    | ROk x s1 =>
        span <- Input_span s (VInput s1) ;;
        Ret (ROk (VTuple [x; VStr (Span_content span)]) s1)
    | _ => Ret RNone
    end.

(** [Parser.string] *)
Definition Parser_string (self : Parser) : Parser :=
  Parser_right (Parser_stringed self).

(** [Parser.negate]: [(not self(s)) and (None, s)] is [False] when
    [self(s)] is a pair. *)
Definition Parser_negate (self : Parser) : Parser :=
  fun fuel s =>
    r <- self fuel s ;;
    if negb (result_truthy r) then Ret (ROk VNone s) else Ret RFalse.

(** [one] *)
Definition one : Parser :=
  fun _ s =>
    if Input__bool__ s
    then Ret (ROk (VStr (Input_curr s 1)) (Input_advance s 1))
    else Ret RNone.

(** [pred] *)
Definition pred (p : pyfun) : Parser := Parser_pred one p.

(** [space] and [ws] *)
Definition space : Parser := pred py_str_isspace.

Definition ws : Parser := Parser_many0 space.

(** The other character classes, over the classification methods of
    [str], which the module takes from Python. *)
Section CharClasses.

Variables str_isalpha str_isalnum str_isdigit str_islower str_isupper : pyfun.

Definition alpha : Parser := pred str_isalpha.
Definition alnum : Parser := pred str_isalnum.
Definition digit : Parser := pred str_isdigit.
Definition lower : Parser := pred str_islower.
Definition upper : Parser := pred str_isupper.

End CharClasses.

(** [Parser.__pos__]: [ws >> self] *)
Definition Parser__pos__ (self : Parser) : outcome Parser :=
  Parser__rshift__ ws (OParser self).

(** [Parser.__neg__]: [self << ws] *)
Definition Parser__neg__ (self : Parser) : outcome Parser :=
  Parser__lshift__ self (OParser ws).

(** [seqws]: every [p] of [ps] becomes [-parser(p)], the results are
    passed to [seq], and [+] is applied to the sequence. *)
Fixpoint seqws_args (ps : list operand) : outcome (list operand) :=
  match ps with
  | [] => Ret []
  | p :: ps' =>
      q <- parser p ;;
      q <- Parser__neg__ q ;;
      qs <- seqws_args ps' ;;
      Ret (OParser q :: qs)
  end.

Definition seqws (ps : list operand) : outcome Parser :=
  args <- seqws_args ps ;;
  q <- seq args ;;
  Parser__pos__ q.

(** [seqspanned]; the function is [lambda x: (x[1], *x[0])]. *)
Definition seqspanned_lambda : pyfun :=
  fun x =>
    a <- py_getitem x 1 ;;
    b <- py_getitem x 0 ;;
    l <- py_iter b ;;
    Ret (VTuple (a :: l)).

Definition seqspanned (ps : list operand) : outcome Parser :=
  q <- seqws ps ;;
  Ret (Parser_map (Parser_spanned q) seqspanned_lambda).

(** [kw]: [+-tag(m).span()] is [+(-(tag(m).span()))]. *)
Definition kw (m : string) : outcome Parser :=
  q <- Parser__neg__ (Parser_span (tag m)) ;;
  Parser__pos__ q.

(* ================================================================== *)
(** ** Vocabulary of the properties *)

(** A call fails when it returns an object the combinators take as false
    ([None], or the [False] of [negate]); it succeeds when it returns a
    pair. *)
Definition is_failure (o : outcome result) : Prop :=
  o = Ret RNone \/ o = Ret RFalse.

Definition is_success (o : outcome result) : Prop :=
  exists x s, o = Ret (ROk x s).

(** The text at the offset of a cursor, [s.s[s.i:]]. *)
Definition Input_rest (s : Input) : string :=
  str_slice (Input_s s) (Input_i s) (len (Input_s s)).

(** Every position of [t] from [a] up to [b] holds a whitespace
    character. *)
Definition all_space (t : string) (a b : Z) : Prop :=
  forall k, a <= k < b -> str_isspace (Input_curr (mkInput t k) 1) = true.

(** The two end points of an operand of [span]: a cursor is the
    zero-width range at its offset. *)
Definition endpoints (x : value) : option (Z * Z) :=
  match x with
  | VInput c => Some (Input_i c, Input_i c)
  | VSpan sp => Some (Span_i sp, Span_j sp)
  | _ => None
  end.

(** The invariant of a span: [start <= end]. *)
Definition Span_ok (sp : Span) : Prop := Span_i sp <= Span_j sp.

(** [occurrences p sep s k trailing s']: from the cursor [s] the text holds
    exactly [k] elements (matches of [p]) separated by matches of [sep], up
    to [s']; [trailing] tells whether the last element (if any) is followed
    by a separator too, after which [p] no longer matches. *)
Inductive occurrences (p sep : Input -> outcome result)
  : Input -> nat -> bool -> Input -> Prop :=
| occ_stop s r :
    p s = Ret r -> result_truthy r = false ->
    occurrences p sep s 0 true s
| occ_last s x s1 r :
    p s = Ret (ROk x s1) ->
    sep s1 = Ret r -> result_truthy r = false ->
    occurrences p sep s 1 false s1
| occ_more s x s1 y s2 k trailing s' :
    p s = Ret (ROk x s1) ->
    sep s1 = Ret (ROk y s2) ->
    occurrences p sep s2 k trailing s' ->
    occurrences p sep s (S k) trailing s'.

(** [ws_elements fuel ps s xs s']: from [s] the parsers [ps] match one
    after the other, each followed by a run of whitespace that [ws] skips;
    [xs] are their values and [s'] is the cursor after the last run. *)
Inductive ws_elements (fuel : nat)
  : list Parser -> Input -> list value -> Input -> Prop :=
| ws_elements_nil s : ws_elements fuel [] s [] s
| ws_elements_cons p ps s x s1 l s2 xs s' :
    p fuel s = Ret (ROk x s1) ->
    ws fuel s1 = Ret (ROk l s2) ->
    ws_elements fuel ps s2 xs s' ->
    ws_elements fuel (p :: ps) s (x :: xs) s'.

(** [spaced_elements fuel ps s xs s']: the layout of the text that [seqws]
    accepts, read off the text itself.  From [s] the parsers [ps] match one
    after the other; after each match come whitespace characters, as many
    as there are (none, or a run of any length, up to a position [b] that
    holds no whitespace), and the next parser starts at [b]; [xs] are the
    values and [s'] is the cursor after the last run. *)
Inductive spaced_elements (fuel : nat)
  : list Parser -> Input -> list value -> Input -> Prop :=
| spaced_elements_nil s : spaced_elements fuel [] s [] s
| spaced_elements_cons p ps s x s1 b xs s' :
    p fuel s = Ret (ROk x s1) ->
    Input_i s1 <= b ->
    all_space (Input_s s1) (Input_i s1) b ->
    str_isspace (Input_curr (mkInput (Input_s s1) b) 1) = false ->
    spaced_elements fuel ps (mkInput (Input_s s1) b) xs s' ->
    spaced_elements fuel (p :: ps) s (x :: xs) s'.

(** The [parse] functions of the library, closed under its combinators:
    the parsers that every constructor below produces. *)
Definition seq_from (xs : list value) (ps : list Parser) : Parser :=
  fun fuel s => seq_loop ps fuel xs s.

Inductive core : Parser -> Prop :=
| core_tag m : core (tag m)
| core_one : core one
| core_add p q : core p -> core q -> core (add_parse p q)
| core_mul p q : core p -> core q -> core (mul_parse p q)
| core_seq_nil xs : core (seq_from xs [])
| core_seq_cons xs p ps :
    core p -> (forall xs', core (seq_from xs' ps)) ->
    core (seq_from xs (p :: ps))
| core_getitem p q : core p -> core q -> core (getitem_parse p q)
| core_map p f : core p -> core (Parser_map p f)
| core_map_star p f : core p -> core (Parser_map_star p f)
| core_pred p f : core p -> core (Parser_pred p f)
| core_optional p : core p -> core (Parser_optional p)
| core_many0 p : core p -> core (Parser_many0 p)
| core_spanned p : core p -> core (Parser_spanned p)
| core_stringed p : core p -> core (Parser_stringed p)
| core_negate p : core p -> core (Parser_negate p).

(** What [parser] returns for an operand is a parse function of the
    library. *)
Definition core_operand (o : operand) : Prop :=
  forall q, parser o = Ret q -> core q.

(** The parsers built with the public constructors and combinators.  A
    combinator that coerces an operand takes a built parser or any object
    that is not callable (a string becomes a [tag], anything else is
    refused when the grammar is built); the functions given to [map],
    [map_star] and [pred] are any pure functions. *)
Inductive built : Parser -> Prop :=
| built_tag m : built (tag m)
| built_one : built one
| built_pred_fn f : built (pred f)
| built_ws : built ws
| built_parser o q : built_operand o -> parser o = Ret q -> built q
| built_add p o q :
    built p -> built_operand o -> Parser__add__ p o = Ret q -> built q
| built_radd p o q :
    built p -> built_operand o -> Parser__radd__ p o = Ret q -> built q
| built_mul p o q :
    built p -> built_operand o -> Parser__mul__ p o = Ret q -> built q
| built_rmul p o q :
    built p -> built_operand o -> Parser__rmul__ p o = Ret q -> built q
| built_pow p n q : built p -> Parser__pow__ p n = Ret q -> built q
| built_getitem p o q :
    built p -> built_operand o -> Parser__getitem__ p o = Ret q -> built q
| built_lshift p o q :
    built p -> built_operand o -> Parser__lshift__ p o = Ret q -> built q
| built_rlshift p o q :
    built p -> built_operand o -> Parser__rlshift__ p o = Ret q -> built q
| built_rshift p o q :
    built p -> built_operand o -> Parser__rshift__ p o = Ret q -> built q
| built_rrshift p o q :
    built p -> built_operand o -> Parser__rrshift__ p o = Ret q -> built q
| built_pos p q : built p -> Parser__pos__ p = Ret q -> built q
| built_neg p q : built p -> Parser__neg__ p = Ret q -> built q
| built_optional p : built p -> built (Parser_optional p)
| built_many0 p : built p -> built (Parser_many0 p)
| built_many1 p : built p -> built (Parser_many1 p)
| built_map p f : built p -> built (Parser_map p f)
| built_map_star p f : built p -> built (Parser_map_star p f)
| built_pred p f : built p -> built (Parser_pred p f)
| built_index p i : built p -> built (Parser_index p i)
| built_left p : built p -> built (Parser_left p)
| built_right p : built p -> built (Parser_right p)
| built_spanned p : built p -> built (Parser_spanned p)
| built_span p : built p -> built (Parser_span p)
| built_stringed p : built p -> built (Parser_stringed p)
| built_string p : built p -> built (Parser_string p)
| built_negate p : built p -> built (Parser_negate p)
| built_seq os q : built_operands os -> seq os = Ret q -> built q
| built_seqws os q : built_operands os -> seqws os = Ret q -> built q
| built_seqspanned os q :
    built_operands os -> seqspanned os = Ret q -> built q
| built_kw m q : kw m = Ret q -> built q
with built_operand : operand -> Prop :=
| built_OParser p : built p -> built_operand (OParser p)
| built_OValue v : built_operand (OValue v)
with built_operands : list operand -> Prop :=
| built_nil : built_operands []
| built_cons o os :
    built_operand o -> built_operands os -> built_operands (o :: os).

Scheme built_ind' := Minimality for built Sort Prop
  with built_operand_ind' := Minimality for built_operand Sort Prop
  with built_operands_ind' := Minimality for built_operands Sort Prop.

Combined Scheme built_mutind
  from built_ind', built_operand_ind', built_operands_ind'.

(** More rounds never change what a call returned or raised. *)
Definition monotone (p : Parser) : Prop :=
  forall n m s o, (n <= m)%nat -> p n s = o -> o <> Timeout -> p m s = o.

(** A success leaves the text alone and does not move the offset back. *)
Definition advances (p : Parser) : Prop :=
  forall fuel s x c,
    p fuel s = Ret (ROk x c) ->
    Input_s c = Input_s s /\ Input_i s <= Input_i c.

(** A call is quiet when it neither raises nor returns [False]. *)
Definition quiet (o : outcome result) : Prop :=
  match o with
  | Raise _ | Ret RFalse => False
  | _ => True
  end.

(** User functions that return for every argument, or for every string. *)
Definition returns (f : pyfun) : Prop := forall x, exists y, f x = Ret y.

Definition returns_on_str (f : pyfun) : Prop :=
  forall t, exists y, f (VStr t) = Ret y.

(** The parse functions built without [negate], [map_star] and free
    indexing: projections are taken only of products and of [spanned] and
    [stringed] pairs, and the user functions return. *)
Inductive plain : Parser -> Prop :=
| plain_tag m : plain (tag m)
| plain_one : plain one
| plain_pred_fn f : returns_on_str f -> plain (pred f)
| plain_add p q : plain p -> plain q -> plain (add_parse p q)
| plain_mul p q : plain p -> plain q -> plain (mul_parse p q)
| plain_left p q : plain p -> plain q -> plain (Parser_left (mul_parse p q))
| plain_right p q :
    plain p -> plain q -> plain (Parser_right (mul_parse p q))
| plain_seq_nil xs : plain (seq_from xs [])
| plain_seq_cons xs p ps :
    plain p -> (forall xs', plain (seq_from xs' ps)) ->
    plain (seq_from xs (p :: ps))
| plain_getitem p q : plain p -> plain q -> plain (getitem_parse p q)
| plain_map p f : plain p -> returns f -> plain (Parser_map p f)
| plain_pred p f : plain p -> returns f -> plain (Parser_pred p f)
| plain_optional p : plain p -> plain (Parser_optional p)
| plain_many0 p : plain p -> plain (Parser_many0 p)
| plain_many1 p : plain p -> plain (Parser_many1 p)
| plain_spanned p : plain p -> plain (Parser_spanned p)
| plain_stringed p : plain p -> plain (Parser_stringed p)
| plain_span p : plain p -> plain (Parser_span p)
| plain_string p : plain p -> plain (Parser_string p).

(* ================================================================== *)
(** ** Checks against the docstrings of the source *)

Definition run (p : outcome Parser) (fuel : nat) (t : string)
  : outcome result :=
  q <- p ;; Parser__call__ q "" (ArgStr t) fuel.

Example tag_doc1 : run (Ret (tag "...")) 0 "" = Ret RNone.
Proof. reflexivity. Qed.

Example tag_doc2 :
  run (Ret (tag "...")) 0 "...asdf"
  = Ret (ROk (VStr "...") (mkInput "...asdf" 3)).
Proof. reflexivity. Qed.

Example getitem_doc3 :
  run (Parser__getitem__ (tag "x") (OValue (VStr ","))) 5 "x,x,"
  = Ret (ROk (VTuple [VList [VStr "x"; VStr "x"]; VList [VStr ","; VStr ","]])
             (mkInput "x,x," 4)).
Proof. reflexivity. Qed.

Example pow_doc :
  run (Parser__pow__ (tag "x") (VInt 5)) 0 "xxxxx"
  = Ret (ROk (VTuple [VStr "x"; VStr "x"; VStr "x"; VStr "x"; VStr "x"])
             (mkInput "xxxxx" 5))
  /\ run (Parser__pow__ (tag "x") (VInt 5)) 0 "xxx" = Ret RNone.
Proof. split; reflexivity. Qed.

Example pos_doc :
  run (Parser__pos__ (tag "x")) 5 "  x"
  = Ret (ROk (VStr "x") (mkInput "  x" 3)).
Proof. reflexivity. Qed.

Example neg_doc :
  run (Parser__neg__ (tag "x")) 5 " x" = Ret RNone
  /\ run (Parser__neg__ (tag "x")) 5 "x  "
     = Ret (ROk (VStr "x") (mkInput "x  " 3)).
Proof. split; reflexivity. Qed.

Example many1_doc :
  run (Ret (Parser_many1 (tag "x"))) 5 "" = Ret RNone
  /\ run (Ret (Parser_many1 (tag "x"))) 5 "xxx"
     = Ret (ROk (VList [VStr "x"; VStr "x"; VStr "x"]) (mkInput "xxx" 3)).
Proof. split; reflexivity. Qed.

Example spanned_doc :
  run (q <- Parser__mul__ (tag "x") (OValue (VStr "y")) ;;
       Ret (Parser_spanned q)) 0 "xy"
  = Ret (ROk (VTuple [VTuple [VStr "x"; VStr "y"]; VSpan (mkSpan "xy" 0 2)])
             (mkInput "xy" 2)).
Proof. reflexivity. Qed.

Example string_doc :
  run (q <- Parser__mul__ (tag "x") (OValue (VStr "y")) ;;
       Ret (Parser_string q)) 0 "xy"
  = Ret (ROk (VStr "xy") (mkInput "xy" 2)).
Proof. reflexivity. Qed.

Example negate_doc :
  run (Ret (Parser_negate (tag "x"))) 0 "x" = Ret RFalse
  /\ run (Ret (Parser_negate (tag "x"))) 0 "y"
     = Ret (ROk VNone (mkInput "y" 0)).
Proof. split; reflexivity. Qed.

Example seqspanned_doc :
  run (seqspanned [OValue (VStr "x"); OValue (VStr "y"); OValue (VStr "z")])
      5 "xyz"
  = Ret (ROk (VTuple [VSpan (mkSpan "xyz" 0 3); VStr "x"; VStr "y"; VStr "z"])
             (mkInput "xyz" 3)).
Proof. reflexivity. Qed.

Example one_doc :
  run (Ret one) 0 "x" = Ret (ROk (VStr "x") (mkInput "x" 1))
  /\ one 0%nat (Input_advance (mkInput "x" 0) 1) = Ret RNone.
Proof. split; reflexivity. Qed.

(* ================================================================== *)
(** ** Slices *)

Lemma substring_all (t : string) : substring 0 (String.length t) t = t.
Proof.
  induction t as [|c t IH]; simpl; [reflexivity | now rewrite IH].
Qed.

Lemma substring_split (t : string) :
  forall d k,
    substring d k t
    = substring 0 k (substring d (String.length t - d) t).
Proof.
  induction t as [|c t IH]; intros d k.
  - destruct d, k; reflexivity.
  - destruct d as [|d].
    + rewrite Nat.sub_0_r. now rewrite (substring_all (String c t)).
    + simpl. apply IH.
Qed.

Lemma substring_length (t : string) :
  forall d, String.length (substring d (String.length t - d) t)
            = (String.length t - d)%nat.
Proof.
  induction t as [|c t IH]; intros d.
  - destruct d; reflexivity.
  - destruct d as [|d].
    + rewrite Nat.sub_0_r. now rewrite (substring_all (String c t)).
    + simpl. apply IH.
Qed.

Lemma substring_clip (u : string) :
  forall k, substring 0 (Nat.min k (String.length u)) u = substring 0 k u.
Proof.
  induction u as [|c u IH]; intros k.
  - destruct k; reflexivity.
  - destruct k as [|k]; simpl; [reflexivity | now rewrite IH].
Qed.

Lemma len_nonneg (t : string) : 0 <= len t.
Proof. unfold len. lia. Qed.

(** From a non-negative offset, [t[i:i+k]] is the first [k] characters of
    [t[i:]]. *)
Lemma str_slice_from (t : string) (i k : Z) :
  0 <= i -> 0 <= k ->
  str_slice t i (i + k) = substring 0 (Z.to_nat k) (str_slice t i (len t)).
Proof.
  intros Hi Hk. unfold str_slice, slice_index.
  pose proof (len_nonneg t) as Hn.
  destruct (Z.ltb_spec i 0) as [?|_]; [lia|].
  destruct (Z.ltb_spec (i + k) 0) as [?|_]; [lia|].
  destruct (Z.ltb_spec (len t) 0) as [?|_]; [lia|].
  set (d := Z.to_nat (Z.min i (len t))).
  replace (Z.to_nat (Z.min (len t) (len t) - Z.min i (len t)))
    with (String.length t - d)%nat by (unfold d, len in *; lia).
  replace (Z.to_nat (Z.min (i + k) (len t) - Z.min i (len t)))
    with (Nat.min (Z.to_nat k) (String.length t - d))
    by (unfold d, len in *; lia).
  rewrite substring_split.
  set (u := substring d (String.length t - d) t).
  replace (String.length t - d)%nat with (String.length u)
    by apply substring_length.
  apply substring_clip.
Qed.

Lemma tag_test (L : string) (s : Input) :
  0 <= Input_i s ->
  String.eqb (Input_curr s (len L)) L = prefix L (Input_rest s).
Proof.
  intros Hi. unfold Input_curr, Input_rest.
  rewrite str_slice_from by (auto using len_nonneg).
  unfold len at 1. rewrite Nat2Z.id.
  destruct (prefix L _) eqn:E.
  - apply prefix_correct in E. now apply String.eqb_eq.
  - apply String.eqb_neq. intros H. apply prefix_correct in H. congruence.
Qed.

(* ================================================================== *)
(** ** tag *)

(** C2.  At a cursor (offset not negative) whose remaining text starts with
    the literal [L], [tag L] returns [L] and the cursor moved forward by
    exactly [len L]; at a cursor whose remaining text does not start with
    [L], it returns [None], so nothing is consumed. *)
Theorem tag_exact_match (L : string) (s : Input) (fuel : nat) :
  0 <= Input_i s ->
  (prefix L (Input_rest s) = true ->
   tag L fuel s
   = Ret (ROk (VStr L) (mkInput (Input_s s) (Input_i s + len L))))
  /\ (prefix L (Input_rest s) = false -> tag L fuel s = Ret RNone).
Proof.
  intros Hi. unfold tag. rewrite (tag_test L s Hi).
  split; intros ->; reflexivity.
Qed.

Lemma tag_exact_match_witness :
  0 <= Input_i (mkInput "...asdf" 0)
  /\ prefix "..." (Input_rest (mkInput "...asdf" 0)) = true
  /\ tag "..." 0%nat (mkInput "...asdf" 0)
     = Ret (ROk (VStr "...") (mkInput "...asdf" 3)).
Proof.
  assert (H0 : 0 <= Input_i (mkInput "...asdf" 0)) by (simpl; lia).
  assert (H1 : prefix "..." (Input_rest (mkInput "...asdf" 0)) = true)
    by reflexivity.
  split; [exact H0 |]. split; [exact H1 |].
  exact (proj1 (tag_exact_match "..." (mkInput "...asdf" 0) 0%nat H0) H1).
Defined.

(** Before the start of the text the test of [tag] looks at [t[i:i+n]],
    which stops at the start of the text when [i + n] reaches it. *)
Example tag_negative_offset :
  prefix "c" (Input_rest (mkInput "abc" (-1))) = true
  /\ tag "c" 0%nat (mkInput "abc" (-1)) = Ret RNone.
Proof. split; reflexivity. Qed.

(* ================================================================== *)
(** ** Input.span and Span.span *)

(** C3, as the code has it.  For a span [sp] and an operand [x] that is a
    cursor or a span, [sp.span(x)] is the span over [sp]'s text from the
    least start to the greatest end, and it satisfies [start <= end] as
    soon as [sp] or [x] does.  For a cursor [c], [c.span(x)] is the span
    from the offset of [c] to the offset (or start) of [x], taken as they
    come; it is the least-start, greatest-end merge, with [start <= end],
    when [x] is a cursor that is not before [c]. *)
Theorem span_merge (c : Input) (sp : Span) (x : value) (lo hi : Z) :
  endpoints x = Some (lo, hi) ->
  Span_span sp x
  = Ret (mkSpan (Span_s sp) (Z.min (Span_i sp) lo) (Z.max (Span_j sp) hi))
  /\ (Span_ok sp \/ lo <= hi ->
      Span_ok (mkSpan (Span_s sp) (Z.min (Span_i sp) lo)
                      (Z.max (Span_j sp) hi)))
  /\ Input_span c x = Ret (mkSpan (Input_s c) (Input_i c) lo)
  /\ (lo = hi -> Input_i c <= lo ->
      mkSpan (Input_s c) (Input_i c) lo
      = mkSpan (Input_s c) (Z.min (Input_i c) lo) (Z.max (Input_i c) hi)
      /\ Span_ok (mkSpan (Input_s c) (Input_i c) lo)).
Proof.
  intros E. unfold Span_ok.
  assert (Hspan : Span_span sp x
                  = Ret (mkSpan (Span_s sp) (Z.min (Span_i sp) lo)
                                (Z.max (Span_j sp) hi))
                  /\ Input_span c x
                     = Ret (mkSpan (Input_s c) (Input_i c) lo)).
  { destruct x; simpl in E; try discriminate; injection E as <- <-;
      split; reflexivity. }
  destruct Hspan as [H1 H2].
  split; [exact H1 |]. split; [simpl; lia |]. split; [exact H2 |].
  intros -> Hle. simpl.
  rewrite Z.min_l, Z.max_r by lia. split; [reflexivity | exact Hle].
Qed.

Lemma span_merge_witness :
  endpoints (VInput (mkInput "xy" 2)) = Some (2, 2)
  /\ Span_span (mkSpan "xy" 0 1) (VInput (mkInput "xy" 2))
     = Ret (mkSpan "xy" 0 2)
  /\ Input_span (mkInput "xy" 0) (VInput (mkInput "xy" 2))
     = Ret (mkSpan "xy" 0 2).
Proof.
  split; [reflexivity |].
  destruct (span_merge (mkInput "xy" 0) (mkSpan "xy" 0 1)
              (VInput (mkInput "xy" 2)) eq_refl) as (H1 & _ & H2 & _).
  split; [exact H1 | exact H2].
Defined.

(** C3 as stated does not hold: a cursor spanned with an earlier cursor
    gives a span that is not the min/max merge and has [start > end]. *)
Lemma span_merge_counterexample :
  Input_span (mkInput "abc" 2) (VInput (mkInput "abc" 0))
  = Ret (mkSpan "abc" 2 0)
  /\ mkSpan "abc" 2 0 <> mkSpan "abc" (Z.min 2 0) (Z.max 2 0)
  /\ ~ Span_ok (mkSpan "abc" 2 0).
Proof.
  split; [reflexivity |]. split; [discriminate |].
  unfold Span_ok; simpl; lia.
Qed.

(* ================================================================== *)
(** ** negate, optional, many1 *)

Lemma result_truthy_false (o : outcome result) :
  is_failure o <-> exists r, o = Ret r /\ result_truthy r = false.
Proof.
  unfold is_failure. split.
  - intros [-> | ->]; eexists; split; reflexivity.
  - intros (r & -> & Hr). destruct r; simpl in Hr; auto; discriminate.
Qed.

Lemma result_truthy_true (o : outcome result) :
  is_success o <-> exists r, o = Ret r /\ result_truthy r = true.
Proof.
  unfold is_success. split.
  - intros (x & s & ->). eexists; split; reflexivity.
  - intros (r & -> & Hr). destruct r; simpl in Hr; try discriminate; eauto.
Qed.

(** C5.  [negate p] succeeds, with the value [None] and the cursor it was
    given, exactly when [p] fails on that cursor; it fails (it returns
    [False]) exactly when [p] succeeds. *)
Theorem negate_duality (p : Parser) (fuel : nat) (s : Input) :
  (is_success (Parser_negate p fuel s) <-> is_failure (p fuel s))
  /\ (is_failure (Parser_negate p fuel s) <-> is_success (p fuel s))
  /\ (forall x c,
        Parser_negate p fuel s = Ret (ROk x c) -> x = VNone /\ c = s).
Proof.
  unfold Parser_negate, is_success, is_failure.
  destruct (p fuel s) as [[| |x c]| |]; simpl; repeat split;
    try (intros (? & ? & ?)); try (intros [? | ?]); intros;
    try discriminate; try congruence; eauto.
Qed.

(** C6.  [optional p] never fails: when [p] fails it returns [None] with
    the cursor it was given, when [p] succeeds it returns the result of
    [p]; so it succeeds whenever [p] returns. *)
Theorem optional_total (p : Parser) (fuel : nat) (s : Input) :
  ~ is_failure (Parser_optional p fuel s)
  /\ (is_failure (p fuel s) ->
      Parser_optional p fuel s = Ret (ROk VNone s))
  /\ (forall x c,
        p fuel s = Ret (ROk x c) ->
        Parser_optional p fuel s = Ret (ROk x c))
  /\ (forall r, p fuel s = Ret r -> is_success (Parser_optional p fuel s)).
Proof.
  unfold Parser_optional, is_success, is_failure.
  destruct (p fuel s) as [[| |x c]| |]; simpl; repeat split;
    try (intros [? | ?]); intros; try discriminate; try congruence; eauto.
Qed.

Lemma optional_total_witness :
  Parser_optional (tag "x") 0%nat (mkInput "y" 0)
  = Ret (ROk VNone (mkInput "y" 0))
  /\ Parser_optional (tag "x") 0%nat (mkInput "x" 0)
     = Ret (ROk (VStr "x") (mkInput "x" 1)).
Proof.
  split.
  - destruct (optional_total (tag "x") 0%nat (mkInput "y" 0))
      as (_ & H & _).
    apply H. left; reflexivity.
  - destruct (optional_total (tag "x") 0%nat (mkInput "x" 0))
      as (_ & _ & H & _).
    apply H. reflexivity.
Defined.

Lemma many0_loop_shape (f : Input -> outcome result) :
  forall fuel xs s r,
    many0_loop f fuel xs s = Ret r ->
    exists ys c, r = ROk (VList (xs ++ ys)) c.
Proof.
  induction fuel as [|fuel IH]; intros xs s r H; simpl in H;
    [discriminate |].
  destruct (f s) as [[| |x c]| |]; simpl in H; try discriminate.
  - injection H as <-. exists [], s. now rewrite app_nil_r.
  - injection H as <-. exists [], s. now rewrite app_nil_r.
  - apply IH in H. destruct H as (ys & c' & ->).
    exists (x :: ys), c'. now rewrite <- app_assoc.
Qed.

Lemma many0_shape (p : Parser) (fuel : nat) (s : Input) (r : result) :
  Parser_many0 p fuel s = Ret r -> exists xs c, r = ROk (VList xs) c.
Proof. intros H. apply many0_loop_shape in H. exact H. Qed.

(** C7.  [many1 p] succeeds exactly when [many0 p] returns a sequence that
    is not empty, with the same sequence and the same cursor; it fails
    exactly when [many0 p] returns the empty sequence. *)
Theorem many1_many0 (p : Parser) (fuel : nat) (s : Input) :
  (forall x c,
     Parser_many1 p fuel s = Ret (ROk x c)
     <-> exists xs,
           xs <> [] /\ x = VList xs
           /\ Parser_many0 p fuel s = Ret (ROk (VList xs) c))
  /\ (is_failure (Parser_many1 p fuel s)
      <-> exists c, Parser_many0 p fuel s = Ret (ROk (VList []) c)).
Proof.
  unfold Parser_many1, Parser_pred, is_failure.
  destruct (Parser_many0 p fuel s) as [r| |] eqn:E; simpl.
  - destruct (many0_shape _ _ _ E) as (xs & c & ->). simpl.
    destruct xs as [|x0 xs]; simpl; split.
    + intros x c'. split; [discriminate |].
      intros (ys & Hne & _ & H). injection H as <- _. congruence.
    + split; eauto.
    + intros x c'. split.
      * intros H. injection H as <- <-. exists (x0 :: xs).
        repeat split; discriminate.
      * intros (ys & _ & -> & H). exact H.
    + split; [intros [?|?]; discriminate | intros (c' & H); discriminate].
  - split; [intros x c; split; [discriminate | intros (? & _ & _ & ?); discriminate] |].
    split; [intros [?|?]; discriminate | intros (? & ?); discriminate].
  - split; [intros x c; split; [discriminate | intros (? & _ & _ & ?); discriminate] |].
    split; [intros [?|?]; discriminate | intros (? & ?); discriminate].
Qed.

(* ================================================================== *)
(** ** seq and negate *)

(** C1, at the input where the code departs from it.  [negate] returns
    [False] when its parser succeeds; [seq] tests [is not None] and then
    unpacks, so the sequence of a [negate] raises [TypeError], while the
    sibling [__mul__], which tests the truth value, takes the same [False]
    as a failure. *)
Theorem seq_negate_raises (fuel : nat) :
  exists q q',
    seq [OParser (Parser_negate (tag "x"))] = Ret q
    /\ Parser__mul__ (Parser_negate (tag "x")) (OParser (tag "x")) = Ret q'
    /\ Parser_negate (tag "x") fuel (mkInput "x" 0) = Ret RFalse
    /\ q fuel (mkInput "x" 0) = Raise TypeError
    /\ q' fuel (mkInput "x" 0) = Ret RNone.
Proof.
  do 2 eexists. repeat split; reflexivity.
Qed.

(* ================================================================== *)
(** ** Properties of every parse function of the library *)

Lemma seq_from_cons (xs : list value) (p : Parser) (ps : list Parser)
    (fuel : nat) (s : Input) :
  seq_from xs (p :: ps) fuel s
  = (r <- p fuel s ;;
     match r with
     | RNone => Ret RNone
     | RFalse => Raise TypeError
     | ROk x s1 => seq_from (xs ++ [x]) ps fuel s1
     end).
Proof. reflexivity. Qed.

Ltac mono_call Hp :=
  match goal with
  | H : context [?p ?n ?s], Hnm : (?n <= ?m)%nat |- context [?p ?m ?s] =>
      let E := fresh "E" in
      destruct (p n s) eqn:E; simpl in H;
      [ rewrite (Hp n m s _ Hnm E) by discriminate; simpl
      | rewrite (Hp n m s _ Hnm E) by discriminate; simpl
      | congruence ]
  end.

Lemma monotone_many0_loop (p : Parser) :
  monotone p ->
  forall k k' n m xs s o,
    (n <= m)%nat -> (k <= k')%nat ->
    many0_loop (p n) k xs s = o -> o <> Timeout ->
    many0_loop (p m) k' xs s = o.
Proof.
  intros Hp. induction k as [|k IH]; intros k' n m xs s o Hnm Hk H Hne;
    simpl in H; [congruence |].
  destruct k' as [|k']; [lia |]. simpl.
  destruct (p n s) as [r| |] eqn:E; simpl in H; [| | congruence];
    rewrite (Hp n m s _ Hnm E) by discriminate; simpl; [| exact H].
  destruct r; try exact H. apply (IH k' n m); auto; lia.
Qed.

Lemma monotone_getitem_loop (p q : Parser) :
  monotone p -> monotone q ->
  forall k k' n m xs ys s o,
    (n <= m)%nat -> (k <= k')%nat ->
    getitem_loop (p n) (q n) k xs ys s = o -> o <> Timeout ->
    getitem_loop (p m) (q m) k' xs ys s = o.
Proof.
  intros Hp Hq.
  induction k as [|k IH]; intros k' n m xs ys s o Hnm Hk H Hne;
    simpl in H; [congruence |].
  destruct k' as [|k']; [lia |]. simpl.
  destruct (p n s) as [r| |] eqn:E; simpl in H; [| | congruence];
    rewrite (Hp n m s _ Hnm E) by discriminate; simpl; [| exact H].
  destruct r as [| |x s1]; try exact H.
  destruct (q n s1) as [r| |] eqn:E'; simpl in H; [| | congruence];
    rewrite (Hq n m s1 _ Hnm E') by discriminate; simpl; [| exact H].
  destruct r; try exact H. apply (IH k' n m); auto; lia.
Qed.

(** Every parse function of the library is monotone in the bound. *)
Lemma core_monotone (p : Parser) : core p -> monotone p.
Proof.
  induction 1 as [m | | p q _ Hp _ Hq | p q _ Hp _ Hq | xs
                 | xs p ps _ Hp _ Hps | p q _ Hp _ Hq | p f _ Hp
                 | p f _ Hp | p f _ Hp | p _ Hp | p _ Hp | p _ Hp
                 | p _ Hp | p _ Hp];
    intros n m' s o Hnm H Hne.
  - exact H.
  - exact H.
  - unfold add_parse in *. mono_call Hp; [| exact H].
    destruct (result_truthy a); [exact H |]. apply (Hq n); auto.
  - unfold mul_parse in *. mono_call Hp; [| exact H].
    destruct a as [| |x s1]; try exact H. mono_call Hq; exact H.
  - exact H.
  - rewrite seq_from_cons in *. mono_call Hp; [| exact H].
    destruct a as [| |x s1]; try exact H. apply (Hps _ n); auto.
  - unfold getitem_parse in *.
    apply (monotone_getitem_loop Hp Hq) with (k := n) (n := n); auto.
  - unfold Parser_map in *. mono_call Hp; exact H.
  - unfold Parser_map_star in *. mono_call Hp; exact H.
  - unfold Parser_pred in *. mono_call Hp; exact H.
  - unfold Parser_optional in *. mono_call Hp; exact H.
  - unfold Parser_many0 in *.
    apply (monotone_many0_loop Hp) with (k := n) (n := n); auto.
  - unfold Parser_spanned in *. mono_call Hp; exact H.
  - unfold Parser_stringed in *. mono_call Hp; exact H.
  - unfold Parser_negate in *. mono_call Hp; exact H.
Qed.

Lemma advances_many0_loop (f : Input -> outcome result) :
  (forall s x c,
     f s = Ret (ROk x c) -> Input_s c = Input_s s /\ Input_i s <= Input_i c) ->
  forall fuel xs s x c,
    many0_loop f fuel xs s = Ret (ROk x c) ->
    Input_s c = Input_s s /\ Input_i s <= Input_i c.
Proof.
  intros Hf. induction fuel as [|fuel IH]; intros xs s x c H; simpl in H;
    [discriminate |].
  destruct (f s) as [[| |y s1]| |] eqn:E; simpl in H; try discriminate;
    try (injection H as _ <-; split; [reflexivity | lia]).
  destruct (Hf _ _ _ E) as [Hs Hi]. destruct (IH _ _ _ _ H) as [Hs' Hi'].
  split; [congruence | lia].
Qed.

Lemma advances_getitem_loop (f g : Input -> outcome result) :
  (forall s x c,
     f s = Ret (ROk x c) -> Input_s c = Input_s s /\ Input_i s <= Input_i c) ->
  (forall s x c,
     g s = Ret (ROk x c) -> Input_s c = Input_s s /\ Input_i s <= Input_i c) ->
  forall fuel xs ys s x c,
    getitem_loop f g fuel xs ys s = Ret (ROk x c) ->
    Input_s c = Input_s s /\ Input_i s <= Input_i c.
Proof.
  intros Hf Hg. induction fuel as [|fuel IH]; intros xs ys s x c H;
    simpl in H; [discriminate |].
  destruct (f s) as [[| |y s1]| |] eqn:E; simpl in H; try discriminate;
    try (injection H as _ <-; split; [reflexivity | lia]).
  destruct (Hf _ _ _ E) as [Hs Hi].
  destruct (g s1) as [[| |z s2]| |] eqn:E'; simpl in H; try discriminate;
    try (injection H as _ <-; split; [exact Hs | exact Hi]).
  destruct (Hg _ _ _ E') as [Hs' Hi'].
  destruct (IH _ _ _ _ _ H) as [Hs'' Hi''].
  split; [congruence | lia].
Qed.

Ltac adv_call Hp :=
  match goal with
  | H : context [?p ?n ?s] |- _ =>
      let E := fresh "E" in
      let y := fresh "y" in
      let s1 := fresh "s" in
      destruct (p n s) as [[| |y s1]| |] eqn:E; simpl in H;
      try discriminate;
      [ apply Hp in E; destruct E ]
  end.

(** Every parse function of the library leaves the text alone and never
    moves the offset back. *)
Lemma core_advances (p : Parser) : core p -> advances p.
Proof.
  induction 1 as [m | | p q _ Hp _ Hq | p q _ Hp _ Hq | xs
                 | xs p ps _ Hp _ Hps | p q _ Hp _ Hq | p f _ Hp
                 | p f _ Hp | p f _ Hp | p _ Hp | p _ Hp | p _ Hp
                 | p _ Hp | p _ Hp];
    intros fuel s x c H.
  - unfold tag in H. destruct (String.eqb _ _); [| discriminate].
    injection H as _ <-. simpl. pose proof (len_nonneg m). split; [easy | lia].
  - unfold one in H. destruct (Input__bool__ s); [| discriminate].
    injection H as _ <-. simpl. split; [easy | lia].
  - unfold add_parse in H.
    destruct (p fuel s) as [[| |y s1]| |] eqn:E; simpl in H;
      try discriminate; try (apply Hq in H; exact H).
    injection H as <- <-. apply (Hp _ _ _ _ E).
  - unfold mul_parse in H. adv_call Hp.
    destruct (q fuel s0) as [[| |z s2]| |] eqn:E'; simpl in H;
      try discriminate.
    injection H as _ <-. apply Hq in E'. destruct E'.
    split; [congruence | lia].
  - injection H as _ <-. split; [reflexivity | lia].
  - rewrite seq_from_cons in H. adv_call Hp.
    apply Hps in H. destruct H. split; [congruence | lia].
  - unfold getitem_parse in H.
    apply advances_getitem_loop in H; [exact H | apply Hp | apply Hq].
  - unfold Parser_map in H. adv_call Hp.
    destruct (f y); simpl in H; try discriminate.
    injection H as _ <-. split; assumption.
  - unfold Parser_map_star in H. adv_call Hp.
    destruct (py_iter y); simpl in H; try discriminate.
    destruct (f a); simpl in H; try discriminate.
    injection H as _ <-. split; assumption.
  - unfold Parser_pred in H. adv_call Hp.
    destruct (f y); simpl in H; try discriminate.
    destruct (truthy a); try discriminate.
    injection H as _ <-. split; assumption.
  - unfold Parser_optional in H.
    destruct (p fuel s) as [[| |y s1]| |] eqn:E; simpl in H;
      try discriminate;
      try (injection H as _ <-; split; [reflexivity | lia]).
    injection H as <- <-. apply (Hp _ _ _ _ E).
  - unfold Parser_many0 in H.
    apply advances_many0_loop in H; [exact H | apply Hp].
  - unfold Parser_spanned in H. adv_call Hp. simpl in H.
    injection H as _ <-. split; assumption.
  - unfold Parser_stringed in H. adv_call Hp. simpl in H.
    injection H as _ <-. split; assumption.
  - unfold Parser_negate in H.
    destruct (p fuel s) as [[| |y s1]| |]; simpl in H; try discriminate;
      injection H as _ <-; split; [reflexivity | lia | reflexivity | lia].
Qed.

(* ================================================================== *)
(** ** The public constructors produce parse functions of the library *)

Lemma bind_Ret {A B : Type} (c : outcome A) (k : A -> outcome B) (b : B) :
  bind c k = Ret b -> exists a, c = Ret a /\ k a = Ret b.
Proof. destruct c; simpl; intros H; try discriminate. eauto. Qed.

Ltac inv_bind H :=
  let a := fresh "q" in
  let E := fresh "E" in
  apply bind_Ret in H; destruct H as (a & E & H).

Ltac inv_ret H := injection H as <-.

Lemma core_seq_from (ps : list Parser) :
  Forall core ps -> forall xs, core (seq_from xs ps).
Proof.
  induction 1 as [|p ps Hp _ IH]; intros xs.
  - apply core_seq_nil.
  - apply core_seq_cons; assumption.
Qed.

Lemma core_map_parser (os : list operand) :
  Forall core_operand os ->
  forall ps, map_parser os = Ret ps -> Forall core ps.
Proof.
  induction 1 as [|o os Ho _ IH]; intros ps H; simpl in H.
  - inv_ret H. constructor.
  - inv_bind H. inv_bind H. inv_ret H. constructor; auto.
Qed.

Lemma core_seq (os : list operand) (q : Parser) :
  Forall core_operand os -> seq os = Ret q -> core q.
Proof.
  intros Hos H. unfold seq in H. inv_bind H. inv_ret H.
  apply (core_seq_from (core_map_parser Hos E)).
Qed.

Lemma core_OParser (p : Parser) : core p -> core_operand (OParser p).
Proof. intros Hp q H. simpl in H. now inv_ret H. Qed.

Lemma core_OValue (v : value) : core_operand (OValue v).
Proof.
  intros q H. destruct v; simpl in H; try discriminate.
  inv_ret H. apply core_tag.
Qed.

Lemma core__add__ (p : Parser) (o : operand) (q : Parser) :
  core p -> core_operand o -> Parser__add__ p o = Ret q -> core q.
Proof.
  intros Hp Ho H. unfold Parser__add__ in H. inv_bind H. inv_ret H.
  apply core_add; auto.
Qed.

Lemma core__mul__ (p : Parser) (o : operand) (q : Parser) :
  core p -> core_operand o -> Parser__mul__ p o = Ret q -> core q.
Proof.
  intros Hp Ho H. unfold Parser__mul__ in H. inv_bind H. inv_ret H.
  apply core_mul; auto.
Qed.

Lemma core__getitem__ (p : Parser) (o : operand) (q : Parser) :
  core p -> core_operand o -> Parser__getitem__ p o = Ret q -> core q.
Proof.
  intros Hp Ho H. unfold Parser__getitem__ in H. inv_bind H. inv_ret H.
  apply core_getitem; auto.
Qed.

Lemma core_index (p : Parser) (i : Z) : core p -> core (Parser_index p i).
Proof. intros Hp. apply core_map, Hp. Qed.

Lemma core__lshift__ (p : Parser) (o : operand) (q : Parser) :
  core p -> core_operand o -> Parser__lshift__ p o = Ret q -> core q.
Proof.
  intros Hp Ho H. unfold Parser__lshift__ in H. inv_bind H. inv_ret H.
  apply core_index. eapply core__mul__; eauto.
Qed.

Lemma core__rshift__ (p : Parser) (o : operand) (q : Parser) :
  core p -> core_operand o -> Parser__rshift__ p o = Ret q -> core q.
Proof.
  intros Hp Ho H. unfold Parser__rshift__ in H. inv_bind H. inv_ret H.
  apply core_index. eapply core__mul__; eauto.
Qed.

Lemma core_pred_fn (f : pyfun) : core (pred f).
Proof. apply core_pred, core_one. Qed.

Lemma core_ws : core ws.
Proof. apply core_many0, core_pred_fn. Qed.

Lemma core__pos__ (p q : Parser) :
  core p -> Parser__pos__ p = Ret q -> core q.
Proof.
  intros Hp H.
  eapply core__rshift__; [apply core_ws | apply core_OParser, Hp | exact H].
Qed.

Lemma core__neg__ (p q : Parser) :
  core p -> Parser__neg__ p = Ret q -> core q.
Proof.
  intros Hp H.
  eapply core__lshift__; [exact Hp | apply core_OParser, core_ws | exact H].
Qed.

Lemma core__pow__ (p : Parser) (n : value) (q : Parser) :
  core p -> Parser__pow__ p n = Ret q -> core q.
Proof.
  intros Hp H.
  assert (Hrep : forall k, Forall core_operand (repeat (OParser p) k)).
  { induction k; simpl; constructor; auto using core_OParser. }
  destruct n; simpl in H; try discriminate.
  - eapply core_seq; eauto.
  - destruct (z >=? 0); [| discriminate]. eapply core_seq; eauto.
Qed.

Lemma core_seqws_args (os : list operand) :
  Forall core_operand os ->
  forall args, seqws_args os = Ret args -> Forall core_operand args.
Proof.
  induction 1 as [|o os Ho _ IH]; intros args H; simpl in H.
  - inv_ret H. constructor.
  - inv_bind H. inv_bind H. inv_ret H. constructor; auto.
    apply core_OParser. eapply core__neg__; [| reflexivity]. auto.
Qed.

Lemma core_seqws (os : list operand) (q : Parser) :
  Forall core_operand os -> seqws os = Ret q -> core q.
Proof.
  intros Hos H. unfold seqws in H. inv_bind H. inv_bind H.
  eapply core__pos__; [| exact H].
  eapply core_seq; [| eassumption]. eapply core_seqws_args; eauto.
Qed.

Lemma core_kw (m : string) (q : Parser) : kw m = Ret q -> core q.
Proof.
  intros H. unfold kw in H. inv_bind H.
  eapply core__pos__; [| exact H].
  eapply core__neg__; [| exact E].
  apply core_index, core_spanned, core_tag.
Qed.

(** Every parser built with the public interface is a parse function of
    the library. *)
Ltac core_of_eq :=
  match goal with
  | H : parser ?o = Ret ?q, Ho : core_operand ?o |- core ?q => exact (Ho q H)
  | H : Parser__add__ _ _ = Ret ?q |- core ?q =>
      eapply core__add__; [| | exact H]; assumption
  | H : Parser__mul__ _ _ = Ret ?q |- core ?q =>
      eapply core__mul__; [| | exact H]; assumption
  | H : Parser__getitem__ _ _ = Ret ?q |- core ?q =>
      eapply core__getitem__; [| | exact H]; assumption
  | H : Parser__lshift__ _ _ = Ret ?q |- core ?q =>
      eapply core__lshift__; [| | exact H]; assumption
  | H : Parser__rshift__ _ _ = Ret ?q |- core ?q =>
      eapply core__rshift__; [| | exact H]; assumption
  | H : Parser__pow__ _ _ = Ret ?q |- core ?q =>
      eapply core__pow__; [| exact H]; assumption
  | H : Parser__pos__ _ = Ret ?q |- core ?q =>
      eapply core__pos__; [| exact H]; assumption
  | H : Parser__neg__ _ = Ret ?q |- core ?q =>
      eapply core__neg__; [| exact H]; assumption
  | H : seq _ = Ret ?q |- core ?q => eapply core_seq; [| exact H]; assumption
  | H : seqws _ = Ret ?q |- core ?q =>
      eapply core_seqws; [| exact H]; assumption
  | H : kw _ = Ret ?q |- core ?q => eapply core_kw; exact H
  end.

Ltac core_reflected H lem :=
  let q := fresh "q" in
  let E := fresh "E" in
  apply bind_Ret in H; destruct H as (q & E & H);
  eapply lem; [| | exact H];
  [ match goal with Ho : core_operand _ |- _ => exact (Ho _ E) end
  | apply core_OParser; assumption ].

(** Every parser built with the public interface is a parse function of
    the library. *)
Lemma built_core_mut :
  (forall p, built p -> core p)
  /\ (forall o, built_operand o -> core_operand o)
  /\ (forall os, built_operands os -> Forall core_operand os).
Proof.
  apply built_mutind; intros; try core_of_eq.
  - apply core_tag.
  - apply core_one.
  - apply core_pred_fn.
  - apply core_ws.
  - unfold Parser__radd__ in *. core_reflected H3 core__add__.
  - unfold Parser__rmul__ in *. core_reflected H3 core__mul__.
  - unfold Parser__rlshift__ in *. core_reflected H3 core__lshift__.
  - unfold Parser__rrshift__ in *. core_reflected H3 core__rshift__.
  - apply core_optional; assumption.
  - apply core_many0; assumption.
  - apply core_pred, core_many0; assumption.
  - apply core_map; assumption.
  - apply core_map_star; assumption.
  - apply core_pred; assumption.
  - apply core_index; assumption.
  - apply core_index; assumption.
  - apply core_index; assumption.
  - apply core_spanned; assumption.
  - apply core_index, core_spanned; assumption.
  - apply core_stringed; assumption.
  - apply core_index, core_stringed; assumption.
  - apply core_negate; assumption.
  - unfold seqspanned in *. inv_bind H1. inv_ret H1.
    apply core_map, core_spanned. eapply core_seqws; eauto.
  - apply core_OParser; assumption.
  - apply core_OValue.
  - constructor.
  - constructor; assumption.
Qed.

Lemma built_core (p : Parser) : built p -> core p.
Proof. apply built_core_mut. Qed.

(* ================================================================== *)
(** ** Cursors only move forward *)

(** C9.  When a parser built from the primitives and combinators of the
    library (with any pure functions given to [map], [map_star] and
    [pred]) succeeds, the cursor it returns is over the same text and its
    offset is not less than the offset of the cursor it was given.  The
    cursor given is a value that no parse function assigns to: each one
    builds the cursor it returns. *)
Theorem built_advances (p : Parser) (fuel : nat) (s c : Input) (x : value) :
  built p ->
  p fuel s = Ret (ROk x c) ->
  Input_s c = Input_s s /\ Input_i s <= Input_i c.
Proof.
  intros Hp H. exact (core_advances (built_core Hp) _ _ H).
Qed.

Lemma built_advances_witness :
  built (Parser_many1 (tag "x"))
  /\ Parser_many1 (tag "x") 4%nat (mkInput "xxx" 0)
     = Ret (ROk (VList [VStr "x"; VStr "x"; VStr "x"]) (mkInput "xxx" 3))
  /\ Input_s (mkInput "xxx" 3) = Input_s (mkInput "xxx" 0)
  /\ Input_i (mkInput "xxx" 0) <= Input_i (mkInput "xxx" 3).
Proof.
  assert (Hb : built (Parser_many1 (tag "x")))
    by (apply built_many1, built_tag).
  split; [exact Hb |]. split; [reflexivity |].
  exact (@built_advances _ 4%nat (mkInput "xxx" 0) _ _ Hb eq_refl).
Defined.

(* ================================================================== *)
(** ** Separated lists *)

Lemma substring_none (t : string) : forall d, substring d 0 t = "".
Proof.
  induction t as [|a t IH]; intros [|d]; simpl; auto.
Qed.

Lemma str_slice_empty (t : string) (i : Z) : str_slice t i i = "".
Proof.
  unfold str_slice. rewrite Z.sub_diag. apply substring_none.
Qed.

Lemma tag_empty (fuel : nat) (s : Input) :
  tag "" fuel s = Ret (ROk (VStr "") (Input_advance s 0)).
Proof.
  unfold tag, Input_curr. change (len "") with 0.
  rewrite Z.add_0_r, str_slice_empty. reflexivity.
Qed.

Lemma getitem_loop_empty (n : nat) :
  forall fuel xs ys s,
    getitem_loop (tag "" n) (tag "" n) fuel xs ys s = Timeout.
Proof.
  induction fuel as [|fuel IH]; intros xs ys s; [reflexivity |].
  cbn [getitem_loop]. rewrite tag_empty. cbn [bind].
  rewrite tag_empty. cbn [bind]. apply IH.
Qed.

Lemma getitem_loop_shape (f g : Input -> outcome result) :
  forall fuel xs ys s r,
    getitem_loop f g fuel xs ys s = Ret r ->
    exists xs' ys' c, r = ROk (VTuple [VList xs'; VList ys']) c.
Proof.
  induction fuel as [|fuel IH]; intros xs ys s r H; simpl in H;
    [discriminate |].
  destruct (f s) as [[| |x s1]| |]; simpl in H; try discriminate;
    try (injection H as <-; eauto).
  destruct (g s1) as [[| |y s2]| |]; simpl in H; try discriminate;
    try (injection H as <-; eauto).
  eapply IH; eauto.
Qed.

Lemma occurrences_last (f g : Input -> outcome result) :
  forall s k trailing s',
    occurrences f g s k trailing s' -> trailing = false -> (1 <= k)%nat.
Proof. induction 1; intros; [discriminate | lia | lia]. Qed.

Lemma getitem_loop_occurrences (f g : Input -> outcome result) :
  forall s k trailing s',
    occurrences f g s k trailing s' ->
    forall fuel xs ys,
      (k < fuel)%nat ->
      exists xs' ys',
        getitem_loop f g fuel xs ys s
        = Ret (ROk (VTuple [VList (xs ++ xs'); VList (ys ++ ys')]) s')
        /\ List.length xs' = k
        /\ List.length ys' = (if trailing then k else (k - 1)%nat).
Proof.
  induction 1 as [s r Hp Hr | s x s1 r Hp Hs Hr
                 | s x s1 y s2 k trailing s' Hp Hs Hocc IH];
    intros fuel xs ys Hk; (destruct fuel as [|fuel]; [lia |]); simpl.
  - rewrite Hp. simpl. exists [], []. rewrite !app_nil_r.
    destruct r; try discriminate; auto.
  - rewrite Hp. simpl. rewrite Hs. simpl. exists [x], [].
    rewrite !app_nil_r. destruct r; try discriminate; auto.
  - rewrite Hp. simpl. rewrite Hs. simpl.
    destruct (IH fuel (xs ++ [x])%list (ys ++ [y])%list)
      as (xs' & ys' & E & Hx & Hy); [lia |].
    exists (x :: xs'), (y :: ys'). rewrite E, <- !app_assoc. simpl.
    repeat split; [lia |].
    destruct trailing; [lia |].
    pose proof (occurrences_last Hocc eq_refl). lia.
Qed.

(** C4, as the code has it.  [separated_list p sep] never reports a
    failure: whatever it returns is a pair of a list of values and a list
    of separators, with a cursor.  When the text holds exactly [k] elements
    separated by separators, it returns (given more than [k] rounds) [k]
    values with [k] separators if a separator follows the last element and
    [k - 1] if not; when [p] fails at once it returns two empty lists and
    the cursor it was given. *)
Theorem separated_list_shape (p sep : Parser) (fuel : nat) (s : Input) :
  Parser__getitem__ p (OParser sep) = Ret (getitem_parse p sep)
  /\ ~ is_failure (getitem_parse p sep fuel s)
  /\ (forall r,
        getitem_parse p sep fuel s = Ret r ->
        exists xs ys c, r = ROk (VTuple [VList xs; VList ys]) c)
  /\ (forall k trailing s',
        occurrences (p fuel) (sep fuel) s k trailing s' ->
        (k < fuel)%nat ->
        exists xs ys,
          getitem_parse p sep fuel s
          = Ret (ROk (VTuple [VList xs; VList ys]) s')
          /\ List.length xs = k
          /\ List.length ys = (if trailing then k else (k - 1)%nat))
  /\ (is_failure (p fuel s) ->
      (0 < fuel)%nat ->
      getitem_parse p sep fuel s = Ret (ROk (VTuple [VList []; VList []]) s)).
Proof.
  split; [reflexivity |]. unfold getitem_parse. repeat split.
  - intros [H | H]; apply getitem_loop_shape in H;
      destruct H as (? & ? & ? & ?); discriminate.
  - intros r H. eapply getitem_loop_shape; eauto.
  - intros k trailing s' Hocc Hk.
    destruct (getitem_loop_occurrences Hocc [] [] Hk)
      as (xs & ys & E & Hx & Hy).
    exists xs, ys. auto.
  - intros Hf Hk. destruct fuel as [|fuel]; [lia |]. simpl.
    destruct Hf as [-> | ->]; reflexivity.
Qed.

Lemma separated_list_shape_witness :
  occurrences (tag "x" 3%nat) (tag "," 3%nat)
    (mkInput "x,x," 0) 2 true (mkInput "x,x," 4)
  /\ exists xs ys,
       getitem_parse (tag "x") (tag ",") 3%nat (mkInput "x,x," 0)
       = Ret (ROk (VTuple [VList xs; VList ys]) (mkInput "x,x," 4))
       /\ List.length xs = 2%nat /\ List.length ys = 2%nat.
Proof.
  assert (Hocc : occurrences (tag "x" 3%nat) (tag "," 3%nat)
                   (mkInput "x,x," 0) 2 true (mkInput "x,x," 4)).
  { eapply occ_more; [reflexivity | reflexivity |].
    eapply occ_more; [reflexivity | reflexivity |].
    eapply occ_stop; reflexivity. }
  split; [exact Hocc |].
  destruct (separated_list_shape (tag "x") (tag ",") 3%nat (mkInput "x,x," 0))
    as (_ & _ & _ & H & _).
  apply (H 2%nat true (mkInput "x,x," 4) Hocc). repeat constructor.
Defined.

(** C4 as stated does not hold for every pair of parsers: when the element
    and the separator both match the empty string the loop never ends, so
    no number of rounds yields a result. *)
Lemma separated_list_counterexample :
  Parser__getitem__ (tag "") (OParser (tag ""))
  = Ret (getitem_parse (tag "") (tag ""))
  /\ (forall fuel,
        getitem_parse (tag "") (tag "") fuel (mkInput "" 0) = Timeout)
  /\ ~ (exists fuel,
          is_success (getitem_parse (tag "") (tag "") fuel (mkInput "" 0))).
Proof.
  split; [reflexivity |].
  assert (H : forall fuel,
             getitem_parse (tag "") (tag "") fuel (mkInput "" 0) = Timeout)
    by (intros fuel; apply getitem_loop_empty).
  split; [exact H |].
  intros (fuel & x & c & E). rewrite H in E. discriminate.
Qed.

(* ================================================================== *)
(** ** Whitespace *)

Lemma space_eval (fuel : nat) (s : Input) :
  space fuel s
  = if Input__bool__ s && str_isspace (Input_curr s 1)
    then Ret (ROk (VStr (Input_curr s 1)) (Input_advance s 1))
    else Ret RNone.
Proof.
  unfold space, pred, Parser_pred, one.
  destruct (Input__bool__ s); simpl; [| reflexivity].
  destruct (str_isspace _); reflexivity.
Qed.

Lemma curr_past_end (s : Input) (n : Z) :
  Input__bool__ s = false -> 0 <= n -> Input_curr s n = "".
Proof.
  unfold Input__bool__, Input_curr, str_slice, slice_index.
  intros H Hn. apply Z.ltb_ge in H. pose proof (len_nonneg (Input_s s)).
  destruct (Z.ltb_spec (Input_i s) 0); [lia |].
  destruct (Z.ltb_spec (Input_i s + n) 0); [lia |].
  rewrite !Z.min_r by lia. rewrite Z.sub_diag. apply substring_none.
Qed.

Lemma space_eval' (fuel : nat) (s : Input) :
  space fuel s
  = if str_isspace (Input_curr s 1)
    then Ret (ROk (VStr (Input_curr s 1)) (Input_advance s 1))
    else Ret RNone.
Proof.
  rewrite space_eval. destruct (Input__bool__ s) eqn:E; [reflexivity |].
  rewrite (curr_past_end s E) by lia. reflexivity.
Qed.

(** [ws] skips the whitespace at the cursor, all of it. *)
Lemma ws_loop_spec (n : nat) :
  forall k xs s r,
    many0_loop (space n) k xs s = Ret r ->
    exists ys c,
      r = ROk (VList ys) c
      /\ Input_s c = Input_s s /\ Input_i s <= Input_i c
      /\ all_space (Input_s s) (Input_i s) (Input_i c)
      /\ str_isspace (Input_curr c 1) = false.
Proof.
  induction k as [|k IH]; intros xs s r H; simpl in H; [discriminate |].
  rewrite space_eval' in H.
  destruct (str_isspace (Input_curr s 1)) eqn:E; simpl in H.
  - apply IH in H. destruct H as (ys & c & -> & Hs & Hi & Hall & Hend).
    simpl in *. exists ys, c. repeat split; auto; [lia |].
    intros j Hj. destruct (Z.eq_dec j (Input_i s)) as [-> | Hne].
    + destruct s; exact E.
    + apply Hall. lia.
  - injection H as <-. exists xs, s. repeat split; auto; [lia |].
    intros j Hj. lia.
Qed.

Lemma ws_spec (fuel : nat) (s : Input) (r : result) :
  ws fuel s = Ret r ->
  exists ys c,
    r = ROk (VList ys) c
    /\ Input_s c = Input_s s /\ Input_i s <= Input_i c
    /\ all_space (Input_s s) (Input_i s) (Input_i c)
    /\ str_isspace (Input_curr c 1) = false.
Proof. apply ws_loop_spec. Qed.

(* ================================================================== *)
(** ** seqws *)

(** The parser [-p] of [__neg__]: [p], then [ws], keeping the value of
    [p]. *)
Lemma neg_eval (p : Parser) (fuel : nat) (s : Input) :
  Parser_left (mul_parse p ws) fuel s
  = (r <- p fuel s ;;
     match r with
     | ROk x s1 =>
         r' <- ws fuel s1 ;;
         match r' with
         | ROk _ s2 => Ret (ROk x s2)
         | _ => Ret RNone
         end
     | _ => Ret RNone
     end).
Proof.
  unfold Parser_left, Parser_index, Parser_map, mul_parse.
  destruct (p fuel s) as [[| |x s1]| |]; simpl; try reflexivity.
  destruct (ws fuel s1) as [[| |l s2]| |]; reflexivity.
Qed.

Lemma seqws_args_eval (os : list operand) :
  forall ps,
    map_parser os = Ret ps ->
    seqws_args os
    = Ret (List.map (fun p => OParser (Parser_left (mul_parse p ws))) ps).
Proof.
  induction os as [|o os IH]; intros ps H; simpl in H.
  - inv_ret H. reflexivity.
  - inv_bind H. inv_bind H. inv_ret H. simpl. rewrite E. simpl.
    rewrite (IH _ E0). reflexivity.
Qed.

Lemma map_parser_OParser (f : Parser -> Parser) (ps : list Parser) :
  map_parser (List.map (fun p => OParser (f p)) ps) = Ret (List.map f ps).
Proof.
  induction ps as [|p ps IH]; simpl; [reflexivity |].
  rewrite IH. reflexivity.
Qed.

Lemma seqws_eval (os : list operand) (ps : list Parser) :
  map_parser os = Ret ps ->
  seqws os
  = Ret (Parser_right
           (mul_parse ws
              (seq_parse
                 (List.map (fun p => Parser_left (mul_parse p ws)) ps)))).
Proof.
  intros H. unfold seqws. rewrite (seqws_args_eval _ H). simpl.
  unfold seq.
  rewrite (map_parser_OParser (fun p => Parser_left (mul_parse p ws))).
  reflexivity.
Qed.

Lemma seq_loop_ws_elements (fuel : nat) :
  forall ps s xs s',
    ws_elements fuel ps s xs s' ->
    forall acc,
      seq_loop (List.map (fun p => Parser_left (mul_parse p ws)) ps)
        fuel acc s
      = Ret (ROk (VTuple (acc ++ xs)) s').
Proof.
  induction 1 as [s | p ps s x s1 l s2 xs s' Hp Hws _ IH]; intros acc.
  - simpl. now rewrite app_nil_r.
  - cbn [List.map seq_loop]. rewrite neg_eval, Hp. cbn [bind].
    rewrite Hws. cbn [bind]. rewrite IH, <- app_assoc. reflexivity.
Qed.

Lemma seq_loop_ws_elements_inv (fuel : nat) :
  forall ps acc s v c,
    seq_loop (List.map (fun p => Parser_left (mul_parse p ws)) ps)
      fuel acc s
    = Ret (ROk v c) ->
    exists xs, v = VTuple (acc ++ xs) /\ ws_elements fuel ps s xs c.
Proof.
  induction ps as [|p ps IH]; intros acc s v c H.
  - simpl in H. injection H as <- <-. exists []. rewrite app_nil_r.
    split; [reflexivity | constructor].
  - cbn [List.map seq_loop] in H. rewrite neg_eval in H.
    destruct (p fuel s) as [[| |x s1]| |] eqn:Hp; simpl in H;
      try discriminate.
    destruct (ws fuel s1) as [[| |l s2]| |] eqn:Hws; simpl in H;
      try discriminate.
    apply IH in H. destruct H as (xs & -> & Hel).
    exists (x :: xs). rewrite <- app_assoc. split; [reflexivity |].
    econstructor; eauto.
Qed.

(* ================================================================== *)
(** ** kw *)

Lemma kw_eval (m : string) :
  kw m
  = Ret (Parser_right
           (mul_parse ws
              (Parser_left (mul_parse (Parser_span (tag m)) ws)))).
Proof. reflexivity. Qed.

Lemma span_tag_eval (m : string) (fuel : nat) (s : Input) :
  Parser_span (tag m) fuel s
  = if String.eqb (Input_curr s (len m)) m
    then Ret (ROk (VSpan (mkSpan (Input_s s) (Input_i s)
                                 (Input_i s + len m)))
                  (Input_advance s (len m)))
    else Ret RNone.
Proof.
  unfold Parser_span, Parser_right, Parser_index, Parser_map,
    Parser_spanned, tag.
  destruct (String.eqb _ _); reflexivity.
Qed.

(** C10.  When [kw m] succeeds, its value is the span of the occurrence of
    [m] that was matched: the text of the span is [m], the span starts
    after the whitespace skipped before [m] and ends where [m] ends, before
    the whitespace skipped after it; the cursor returned is after that
    whitespace, at a position that holds no whitespace. *)
Theorem kw_span (m : string) (q : Parser) (fuel : nat) (s : Input)
    (v : value) (c : Input) :
  kw m = Ret q ->
  q fuel s = Ret (ROk v c) ->
  exists a,
    v = VSpan (mkSpan (Input_s s) a (a + len m))
    /\ Span_content (mkSpan (Input_s s) a (a + len m)) = m
    /\ Input_s c = Input_s s
    /\ Input_i s <= a /\ a + len m <= Input_i c
    /\ all_space (Input_s s) (Input_i s) a
    /\ str_isspace (Input_curr (mkInput (Input_s s) a) 1) = false
    /\ all_space (Input_s s) (a + len m) (Input_i c)
    /\ str_isspace (Input_curr c 1) = false.
Proof.
  rewrite kw_eval. intros Hq H. injection Hq as <-.
  unfold Parser_right, Parser_index, Parser_map in H.
  unfold mul_parse at 1 in H.
  destruct (ws fuel s) as [r0| |] eqn:E0; simpl in H; try discriminate.
  destruct (ws_spec _ _ E0) as (l0 & s0 & -> & Hs0 & Hi0 & Hall0 & Hend0).
  rewrite neg_eval, span_tag_eval in H.
  destruct (String.eqb (Input_curr s0 (len m)) m) eqn:Etag; simpl in H;
    try discriminate.
  destruct (ws fuel (Input_advance s0 (len m))) as [r1| |] eqn:E1;
    simpl in H; try discriminate.
  destruct (ws_spec _ _ E1) as (l1 & s1 & -> & Hs1 & Hi1 & Hall1 & Hend1).
  simpl in H. injection H as <- <-.
  destruct s0 as [t0 a]. simpl in *. subst t0. exists a.
  split; [reflexivity |].
  split; [apply String.eqb_eq; exact Etag |].
  split; [exact Hs1 |].
  split; [exact Hi0 |].
  split; [exact Hi1 |].
  split; [exact Hall0 |].
  split; [exact Hend0 |].
  split; [exact Hall1 | exact Hend1].
Qed.

Lemma kw_span_witness :
  exists q,
    kw "let" = Ret q
    /\ q 4%nat (mkInput "  let  x" 0)
       = Ret (ROk (VSpan (mkSpan "  let  x" 2 5)) (mkInput "  let  x" 7))
    /\ exists a,
         VSpan (mkSpan "  let  x" 2 5) = VSpan (mkSpan "  let  x" a (a + 3))
         /\ Span_content (mkSpan "  let  x" a (a + 3)) = "let".
Proof.
  eexists. split; [apply kw_eval |]. split; [reflexivity |].
  destruct (@kw_span "let" _ 4%nat (mkInput "  let  x" 0) _ _
              (kw_eval "let") eq_refl) as (a & Hv & Hc & _).
  exists a. split; [exact Hv | exact Hc].
Defined.

(* ================================================================== *)
(** ** Input: what [curr] returns *)

Lemma substring_shift (t : string) :
  forall d k n,
    substring (d + k) n t
    = substring k n (substring d (String.length t - d) t).
Proof.
  induction t as [|a t IH]; intros d k n.
  - destruct d, k, n; reflexivity.
  - destruct d as [|d]; simpl.
    + now rewrite (substring_all t).
    + apply IH.
Qed.

Lemma substring_beyond (t : string) :
  forall d n, (String.length t <= d)%nat -> substring d n t = "".
Proof.
  induction t as [|a t IH]; intros d n H.
  - destruct d, n; reflexivity.
  - destruct d as [|d]; simpl in *; [lia |]. apply IH. lia.
Qed.

Lemma substring_prefix_length (u : string) :
  forall n, String.length (substring 0 n u) = Nat.min n (String.length u).
Proof.
  induction u as [|a u IH]; intros [|n]; simpl; auto.
Qed.

Lemma substring_append (u : string) :
  forall a b,
    substring 0 (a + b) u = (substring 0 a u ++ substring a b u)%string.
Proof.
  induction u as [|c u IH]; intros a b.
  - destruct a, b; reflexivity.
  - destruct a as [|a]; simpl; [reflexivity |]. now rewrite IH.
Qed.

Lemma append_length (a b : string) :
  String.length (a ++ b)%string = (String.length a + String.length b)%nat.
Proof. induction a as [|c a IH]; simpl; auto. Qed.

Lemma append_same_length (x a : string) :
  forall y b,
    String.length x = String.length a ->
    (x ++ y)%string = (a ++ b)%string -> x = a /\ y = b.
Proof.
  revert a. induction x as [|c x IH]; intros [|c' a] y b Hl H;
    simpl in *; try discriminate; auto.
  injection H as -> H. injection Hl as Hl.
  destruct (IH _ _ _ Hl H) as [-> ->]. auto.
Qed.

(** The text at a cursor that is not before the start of its text. *)
Lemma Input_rest_eval (s : Input) :
  0 <= Input_i s ->
  let d := Z.to_nat (Z.min (Input_i s) (len (Input_s s))) in
  Input_rest s
  = substring d (String.length (Input_s s) - d) (Input_s s).
Proof.
  intros Hi d. unfold Input_rest, str_slice, slice_index.
  pose proof (len_nonneg (Input_s s)).
  destruct (Z.ltb_spec (Input_i s) 0); [lia |].
  destruct (Z.ltb_spec (len (Input_s s)) 0); [lia |].
  fold d. f_equal. unfold d, len in *. lia.
Qed.

Lemma Input_rest_length (s : Input) :
  0 <= Input_i s ->
  len (Input_rest s) = Z.max 0 (len (Input_s s) - Input_i s).
Proof.
  intros Hi. rewrite (Input_rest_eval s Hi). unfold len.
  rewrite substring_length. lia.
Qed.

Lemma Input_curr_eval (s : Input) (n : Z) :
  0 <= Input_i s -> 0 <= n ->
  Input_curr s n = substring 0 (Z.to_nat n) (Input_rest s).
Proof. intros Hi Hn. apply str_slice_from; assumption. Qed.

(** X1.  From a cursor that is not before the start of the text,
    [curr(n)] holds [n] characters, or the characters that are left when
    fewer than [n] are: it is cut at the end of the text, and it is empty
    once the cursor is exhausted. *)
Theorem Input_curr_length (s : Input) (n : Z) :
  0 <= Input_i s -> 0 <= n ->
  len (Input_curr s n) = Z.min n (Z.max 0 (len (Input_s s) - Input_i s))
  /\ (Input__bool__ s = false -> Input_curr s n = "").
Proof.
  intros Hi Hn. split.
  - rewrite (Input_curr_eval s Hi Hn).
    pose proof (Input_rest_length s Hi) as Hr. unfold len in *.
    rewrite substring_prefix_length. lia.
  - intros Hb. apply curr_past_end; assumption.
Qed.

Lemma Input_curr_length_witness :
  0 <= Input_i (mkInput "asdf" 3) /\ 0 <= 2
  /\ len (Input_curr (mkInput "asdf" 3) 2) = 1.
Proof.
  assert (Hi : 0 <= Input_i (mkInput "asdf" 3)) by (simpl; lia).
  assert (Hn : 0 <= 2) by lia.
  split; [exact Hi |]. split; [exact Hn |].
  exact (proj1 (Input_curr_length (mkInput "asdf" 3) Hi Hn)).
Defined.

Lemma Input_rest_advance (s : Input) (a : Z) :
  0 <= Input_i s -> 0 <= a ->
  forall n,
    substring 0 n (Input_rest (Input_advance s a))
    = substring (Z.to_nat a) n (Input_rest s).
Proof.
  intros Hi Ha n.
  rewrite (Input_rest_eval s Hi).
  rewrite (Input_rest_eval (Input_advance s a)) by (simpl; lia).
  simpl. set (t := Input_s s). set (i := Input_i s).
  pose proof (len_nonneg t) as Hl.
  rewrite <- substring_split, <- substring_shift.
  destruct (Z.le_gt_cases (i + a) (len t)) as [Hle | Hgt].
  - f_equal. lia.
  - rewrite !substring_beyond; [reflexivity | |]; unfold len in *; lia.
Qed.

(** X2.  Reading [a + b] characters at a cursor is reading [a] of them
    and then [b] at the cursor advanced by [a]. *)
Theorem Input_curr_advance (s : Input) (a b : Z) :
  0 <= Input_i s -> 0 <= a -> 0 <= b ->
  Input_curr s (a + b)
  = (Input_curr s a ++ Input_curr (Input_advance s a) b)%string.
Proof.
  intros Hi Ha Hb.
  rewrite !Input_curr_eval by (simpl; lia).
  rewrite Input_rest_advance by assumption.
  rewrite Z2Nat.inj_add by assumption. apply substring_append.
Qed.

Lemma Input_curr_advance_witness :
  0 <= Input_i (mkInput "asdf" 1) /\ 0 <= 1 /\ 0 <= 2
  /\ Input_curr (mkInput "asdf" 1) (1 + 2)
     = (Input_curr (mkInput "asdf" 1) 1
        ++ Input_curr (Input_advance (mkInput "asdf" 1) 1) 2)%string.
Proof.
  assert (Hi : 0 <= Input_i (mkInput "asdf" 1)) by (simpl; lia).
  assert (Ha : 0 <= 1) by lia.
  assert (Hb : 0 <= 2) by lia.
  split; [exact Hi |]. split; [exact Ha |]. split; [exact Hb |].
  exact (Input_curr_advance (mkInput "asdf" 1) Hi Ha Hb).
Defined.

(** X3.  The tag of a concatenation is the sequence of the two tags: from
    a cursor that is not before the start of the text, [tag (a ++ b)]
    succeeds exactly when [tag a] followed by [tag b] does, and both end at
    the same cursor. *)
Theorem tag_append (a b : string) (fuel : nat) (s c : Input) :
  0 <= Input_i s ->
  (tag (a ++ b) fuel s = Ret (ROk (VStr (a ++ b)) c)
   <-> mul_parse (tag a) (tag b) fuel s
       = Ret (ROk (VTuple [VStr a; VStr b]) c)).
Proof.
  intros Hi.
  pose proof (len_nonneg a) as Ha. pose proof (len_nonneg b) as Hb.
  assert (Hlen : len (a ++ b) = len a + len b)
    by (unfold len; rewrite append_length; lia).
  assert (Hadv : Input_advance (Input_advance s (len a)) (len b)
                 = Input_advance s (len (a ++ b))).
  { unfold Input_advance. simpl. rewrite Hlen. f_equal. lia. }
  unfold mul_parse, tag.
  rewrite Hlen at 1. rewrite (Input_curr_advance s Hi Ha Hb).
  set (x := Input_curr s (len a)).
  set (y := Input_curr (Input_advance s (len a)) (len b)).
  assert (Hx : len x <= len a)
    by (unfold x; rewrite (proj1 (Input_curr_length s Hi Ha)); lia).
  assert (Hy : len y <= len b).
  { unfold y.
    rewrite (proj1 (@Input_curr_length (Input_advance s (len a)) (len b)
                      ltac:(simpl; lia) Hb)).
    lia. }
  destruct (String.eqb_spec x a) as [Ex | Ex]; simpl.
  - fold y. destruct (String.eqb_spec y b) as [Ey | Ey]; simpl.
    + rewrite Ex, Ey, String.eqb_refl, Hadv. split; intros H; congruence.
    + destruct (String.eqb_spec (x ++ y) (a ++ b)) as [E | E].
      * rewrite Ex in E.
        destruct (append_same_length a a y b eq_refl E) as [_ ?].
        contradiction.
      * split; discriminate.
  - destruct (String.eqb_spec (x ++ y) (a ++ b)) as [E | E].
    + assert (Hl : String.length x = String.length a).
      { apply (f_equal String.length) in E.
        rewrite !append_length in E. unfold len in *. lia. }
      destruct (append_same_length x a y b Hl E) as [? _]. contradiction.
    + split; discriminate.
Qed.

Lemma tag_append_witness :
  0 <= Input_i (mkInput "xyz" 0)
  /\ tag ("x" ++ "y") 0%nat (mkInput "xyz" 0)
     = Ret (ROk (VStr ("x" ++ "y")) (mkInput "xyz" 2))
  /\ mul_parse (tag "x") (tag "y") 0%nat (mkInput "xyz" 0)
     = Ret (ROk (VTuple [VStr "x"; VStr "y"]) (mkInput "xyz" 2)).
Proof.
  assert (Hi : 0 <= Input_i (mkInput "xyz" 0)) by (simpl; lia).
  split; [exact Hi |]. split; [reflexivity |].
  exact (proj1 (@tag_append "x" "y" 0%nat (mkInput "xyz" 0)
                  (mkInput "xyz" 2) Hi) eq_refl).
Defined.

(** X4.  [one] returns the character at the offset, as a string of one
    character, and the cursor one position further; at the end of the text
    or beyond it returns [None]. *)
Theorem one_consumes_one (fuel : nat) (s : Input) :
  0 <= Input_i s ->
  (Input_i s < len (Input_s s) ->
   exists ch,
     String.get (Z.to_nat (Input_i s)) (Input_s s) = Some ch
     /\ one fuel s
        = Ret (ROk (VStr (String ch ""))
                   (mkInput (Input_s s) (Input_i s + 1))))
  /\ (len (Input_s s) <= Input_i s -> one fuel s = Ret RNone).
Proof.
  intros Hi. unfold one, Input__bool__. split; intros H.
  - destruct (Z.ltb_spec (Input_i s) (len (Input_s s))); [| lia].
    pose proof (proj1 (Input_curr_length s Hi (n := 1) ltac:(lia))) as Hl.
    assert (Hc : Input_curr s 1
                 = substring (Z.to_nat (Input_i s)) 1 (Input_s s)).
    { unfold Input_curr, str_slice, slice_index.
      destruct (Z.ltb_spec (Input_i s) 0); [lia |].
      destruct (Z.ltb_spec (Input_i s + 1) 0); [lia |].
      f_equal; lia. }
    pose proof (substring_correct1 (Input_s s) (Z.to_nat (Input_i s))
                  1 0 ltac:(lia)) as Hg.
    rewrite <- Hc in Hg. clear Hc.
    destruct (Input_curr s 1) as [|ch [|ch' u]];
      try (unfold len in *; simpl in Hl; lia).
    exists ch. split; [| reflexivity].
    simpl in Hg. congruence.
  - destruct (Z.ltb_spec (Input_i s) (len (Input_s s))); [lia |].
    reflexivity.
Qed.

Lemma one_consumes_one_witness :
  0 <= Input_i (mkInput "asdf" 1)
  /\ Input_i (mkInput "asdf" 1) < len (Input_s (mkInput "asdf" 1))
  /\ exists ch,
       String.get (Z.to_nat (Input_i (mkInput "asdf" 1)))
         (Input_s (mkInput "asdf" 1)) = Some ch
       /\ one 0%nat (mkInput "asdf" 1)
          = Ret (ROk (VStr (String ch "")) (mkInput "asdf" (1 + 1))).
Proof.
  assert (Hi : 0 <= Input_i (mkInput "asdf" 1)) by (simpl; lia).
  assert (Hl : Input_i (mkInput "asdf" 1) < len (Input_s (mkInput "asdf" 1)))
    by (vm_compute; reflexivity).
  split; [exact Hi |]. split; [exact Hl |].
  exact (proj1 (@one_consumes_one 0%nat (mkInput "asdf" 1) Hi) Hl).
Defined.

(* ================================================================== *)
(** ** many0 and ws: when the loop ends *)

Lemma many0_loop_terminates (f : Input -> outcome result) :
  (forall s', exists r, f s' = Ret r) ->
  (forall s' x c,
     f s' = Ret (ROk x c) ->
     Input_s c = Input_s s' /\ Input_i s' < Input_i c <= len (Input_s s')) ->
  forall k xs s,
    (Z.to_nat (len (Input_s s) - Input_i s) < k)%nat ->
    exists ys c,
      many0_loop f k xs s = Ret (ROk (VList (xs ++ ys)) c)
      /\ is_failure (f c)
      /\ Input_s c = Input_s s /\ Input_i s <= Input_i c
      /\ Z.of_nat (List.length ys) <= Input_i c - Input_i s.
Proof.
  intros Hret Hadv. induction k as [|k IH]; intros xs s Hk; [lia |].
  simpl. destruct (Hret s) as (r & Hr). rewrite Hr. simpl.
  destruct r as [| |x c].
  - exists [], s. rewrite app_nil_r. unfold is_failure. simpl.
    repeat split; auto; lia.
  - exists [], s. rewrite app_nil_r. unfold is_failure. simpl.
    repeat split; auto; lia.
  - destruct (Hadv _ _ _ Hr) as (Hs & Hlt & Hle).
    destruct (IH (xs ++ [x])%list c) as (ys & c' & E & Hf & Hs' & Hi' & Hn).
    { rewrite Hs. lia. }
    exists (x :: ys), c'. rewrite E, <- app_assoc. simpl List.length.
    repeat split; auto; try congruence; lia.
Qed.

(** X5.  [many0 p] returns as soon as the rounds allowed exceed the text
    that is left, when [p] returns at every cursor and consumes at least
    one character of the text each time it succeeds: the result is a list,
    with at most one value per character consumed, and a cursor at which
    [p] fails. *)
Theorem many0_terminates (p : Parser) (fuel : nat) (s : Input) :
  (forall s', exists r, p fuel s' = Ret r) ->
  (forall s' x c,
     p fuel s' = Ret (ROk x c) ->
     Input_s c = Input_s s' /\ Input_i s' < Input_i c <= len (Input_s s')) ->
  (Z.to_nat (len (Input_s s) - Input_i s) < fuel)%nat ->
  exists xs c,
    Parser_many0 p fuel s = Ret (ROk (VList xs) c)
    /\ is_failure (p fuel c)
    /\ Input_s c = Input_s s /\ Input_i s <= Input_i c
    /\ Z.of_nat (List.length xs) <= Input_i c - Input_i s.
Proof.
  intros Hret Hadv Hk.
  exact (many0_loop_terminates (p fuel) Hret Hadv [] s Hk).
Qed.

Lemma space_returns (fuel : nat) (s : Input) : exists r, space fuel s = Ret r.
Proof.
  rewrite space_eval'. destruct (str_isspace _); eauto.
Qed.

Lemma space_consumes (fuel : nat) (s : Input) (x : value) (c : Input) :
  space fuel s = Ret (ROk x c) ->
  Input_s c = Input_s s /\ Input_i s < Input_i c <= len (Input_s s).
Proof.
  rewrite space_eval. unfold Input__bool__.
  destruct (Z.ltb_spec (Input_i s) (len (Input_s s))); simpl;
    [| discriminate].
  destruct (str_isspace _); [| discriminate].
  intros Hr. injection Hr as _ <-. simpl. split; [reflexivity | lia].
Qed.

Lemma many0_terminates_witness :
  exists xs c,
    Parser_many0 space 4%nat (mkInput "  x" 0) = Ret (ROk (VList xs) c)
    /\ is_failure (space 4%nat c)
    /\ Input_s c = "  x" /\ 0 <= Input_i c
    /\ Z.of_nat (List.length xs) <= Input_i c - 0.
Proof.
  exact (@many0_terminates space 4%nat (mkInput "  x" 0)
           (space_returns 4) (@space_consumes 4)
           ltac:(vm_compute; lia)).
Defined.

(** X6.  [ws] always returns once the rounds allowed exceed the text that
    is left: it yields a list and the cursor after the run of whitespace
    at the cursor, all positions skipped hold whitespace, and the position
    reached does not. *)
Theorem ws_total (fuel : nat) (s : Input) :
  (Z.to_nat (len (Input_s s) - Input_i s) < fuel)%nat ->
  exists l c,
    ws fuel s = Ret (ROk (VList l) c)
    /\ Input_s c = Input_s s /\ Input_i s <= Input_i c
    /\ all_space (Input_s s) (Input_i s) (Input_i c)
    /\ str_isspace (Input_curr c 1) = false.
Proof.
  intros Hk.
  destruct (many0_loop_terminates (space fuel) (space_returns fuel)
              (@space_consumes fuel) [] s Hk)
    as (l & c & E & _).
  destruct (ws_loop_spec _ _ _ _ E) as (l' & c' & Hr & Hs & Hi & Ha & He).
  injection Hr as <- <-. exists l, c. auto.
Qed.

Lemma ws_total_witness :
  exists l c,
    ws 4%nat (mkInput "  x" 0) = Ret (ROk (VList l) c)
    /\ Input_s c = "  x" /\ 0 <= Input_i c
    /\ all_space "  x" 0 (Input_i c)
    /\ str_isspace (Input_curr c 1) = false.
Proof.
  exact (@ws_total 4%nat (mkInput "  x" 0) ltac:(vm_compute; lia)).
Defined.

Lemma many0_loop_diverges (f : Input -> outcome result) :
  (forall s', is_success (f s')) ->
  forall k xs s, many0_loop f k xs s = Timeout.
Proof.
  intros Hf. induction k as [|k IH]; intros xs s; [reflexivity |].
  simpl. destruct (Hf s) as (x & c & ->). simpl. apply IH.
Qed.

(** X7.  [many0] over a parser that succeeds at every cursor never
    returns, whatever the number of rounds: in particular [many0] of an
    [optional], which cannot fail. *)
Theorem many0_never_returns (p : Parser) (s : Input) :
  (forall fuel s', is_success (p fuel s')) ->
  forall fuel,
    Parser_many0 p fuel s = Timeout
    /\ Parser_many0 (Parser_optional (tag "x")) fuel s = Timeout.
Proof.
  intros Hp fuel. split.
  - apply many0_loop_diverges. apply Hp.
  - apply many0_loop_diverges. intros s'.
    unfold Parser_optional, tag, is_success.
    destruct (String.eqb _ _); simpl; eauto.
Qed.

Lemma many0_never_returns_witness :
  (forall fuel s', is_success (tag "" fuel s'))
  /\ forall fuel, Parser_many0 (tag "") fuel (mkInput "abc" 0) = Timeout.
Proof.
  assert (H : forall fuel s', is_success (tag "" fuel s')).
  { intros fuel s'. rewrite tag_empty. unfold is_success. eauto. }
  split; [exact H |].
  intros fuel.
  exact (proj1 (@many0_never_returns (tag "") (mkInput "abc" 0) H fuel)).
Defined.

(* ================================================================== *)
(** ** Alternation *)

(** X8.  Alternation is an ordered choice: when the left parser succeeds
    its result is the result, whatever the right one would do; when it
    fails the right one runs from the same cursor; and grouping
    alternatives to the left or to the right gives the same parser. *)
Theorem add_ordered_choice (a b c : Parser) (fuel : nat) (s : Input) :
  Parser__add__ a (OParser b) = Ret (add_parse a b)
  /\ (is_success (a fuel s) -> add_parse a b fuel s = a fuel s)
  /\ (is_failure (a fuel s) -> add_parse a b fuel s = b fuel s)
  /\ add_parse (add_parse a b) c fuel s
     = add_parse a (add_parse b c) fuel s.
Proof.
  unfold add_parse, is_success, is_failure.
  split; [reflexivity |]. split; [| split].
  - intros (x & s1 & ->). reflexivity.
  - intros [-> | ->]; reflexivity.
  - destruct (a fuel s) as [[| |x s1]| |]; simpl; try reflexivity.
Qed.

Lemma add_ordered_choice_witness :
  add_parse (tag "x") (tag "xy") 0%nat (mkInput "xy" 0)
  = Ret (ROk (VStr "x") (mkInput "xy" 1))
  /\ add_parse (tag "y") (tag "xy") 0%nat (mkInput "xy" 0)
     = Ret (ROk (VStr "xy") (mkInput "xy" 2)).
Proof.
  split.
  - destruct (add_ordered_choice (tag "x") (tag "xy") (tag "")
                0%nat (mkInput "xy" 0)) as (_ & H & _).
    rewrite H; [reflexivity |]. do 2 eexists; reflexivity.
  - destruct (add_ordered_choice (tag "y") (tag "xy") (tag "")
                0%nat (mkInput "xy" 0)) as (_ & _ & H & _).
    rewrite H; [reflexivity |]. left; reflexivity.
Defined.

(* ================================================================== *)
(** ** Errors when a grammar is built *)

Lemma parser_OValue (v : value) :
  (forall m, v <> VStr m) -> parser (OValue v) = Raise TypeError.
Proof.
  intros H. destruct v; try reflexivity. now destruct (H t).
Qed.

Lemma parser_outcome (o : operand) :
  (exists q, parser o = Ret q) \/ parser o = Raise TypeError.
Proof.
  destruct o as [p | f | v]; simpl; eauto.
  destruct v; eauto.
Qed.

(** X9.  An operand that is neither a parser, nor callable, nor a string
    is refused with [TypeError] when the grammar is built: by [parser], by
    every binary combinator and its reflected form, and by [seq] and
    [seqws] wherever it stands among the operands.  A string operand
    stands for its [tag]. *)
Theorem operand_type_error (p : Parser) (v : value) :
  (forall m, v <> VStr m) ->
  parser (OValue v) = Raise TypeError
  /\ Parser__add__ p (OValue v) = Raise TypeError
  /\ Parser__radd__ p (OValue v) = Raise TypeError
  /\ Parser__mul__ p (OValue v) = Raise TypeError
  /\ Parser__rmul__ p (OValue v) = Raise TypeError
  /\ Parser__getitem__ p (OValue v) = Raise TypeError
  /\ Parser__lshift__ p (OValue v) = Raise TypeError
  /\ Parser__rlshift__ p (OValue v) = Raise TypeError
  /\ Parser__rshift__ p (OValue v) = Raise TypeError
  /\ Parser__rrshift__ p (OValue v) = Raise TypeError
  /\ (forall os os', seq (os ++ OValue v :: os') = Raise TypeError)
  /\ (forall os os', seqws (os ++ OValue v :: os') = Raise TypeError)
  /\ (forall m, Parser__mul__ p (OValue (VStr m))
                = Parser__mul__ p (OParser (tag m))).
Proof.
  intros Hv. pose proof (parser_OValue Hv) as E.
  unfold Parser__add__, Parser__radd__, Parser__mul__, Parser__rmul__,
    Parser__getitem__, Parser__lshift__, Parser__rlshift__,
    Parser__rshift__, Parser__rrshift__, Parser__mul__.
  rewrite E. simpl. repeat (split; [reflexivity |]).
  split; [| split; [| reflexivity]].
  - intros os os'. unfold seq.
    assert (H : map_parser (os ++ OValue v :: os') = Raise TypeError).
    { induction os as [|o os IH]; cbn [app map_parser];
        [now rewrite E |].
      destruct (parser_outcome o) as [(q & ->) | ->]; cbn [bind];
        [now rewrite IH | reflexivity]. }
    now rewrite H.
  - intros os os'. unfold seqws.
    assert (H : seqws_args (os ++ OValue v :: os') = Raise TypeError).
    { induction os as [|o os IH]; cbn [app seqws_args];
        [now rewrite E |].
      destruct (parser_outcome o) as [(q & ->) | ->]; cbn [bind];
        [| reflexivity].
      unfold Parser__neg__, Parser__lshift__, Parser__mul__. cbn [parser bind].
      now rewrite IH. }
    now rewrite H.
Qed.

Lemma operand_type_error_witness :
  parser (OValue VNone) = Raise TypeError
  /\ Parser__mul__ (tag "x") (OValue (VInt 3)) = Raise TypeError.
Proof.
  split.
  - apply (@operand_type_error (tag "x") VNone). discriminate.
  - apply (@operand_type_error (tag "x") (VInt 3)). discriminate.
Defined.

(* ================================================================== *)
(** ** seq and repetition *)

Lemma seq_loop_length (fuel : nat) :
  forall ps xs s v c,
    seq_loop ps fuel xs s = Ret (ROk v c) ->
    exists ys,
      v = VTuple (xs ++ ys) /\ List.length ys = List.length ps.
Proof.
  induction ps as [|p ps IH]; intros xs s v c H; simpl in H.
  - injection H as <- <-. exists []. now rewrite app_nil_r.
  - destruct (p fuel s) as [[| |x s1]| |]; simpl in H; try discriminate.
    apply IH in H. destruct H as (ys & -> & Hl).
    exists (x :: ys). rewrite <- app_assoc. simpl. auto.
Qed.

(** X10.  When [seq] succeeds its value is a tuple with one value per
    parser; the empty sequence succeeds with the empty tuple and the
    cursor it was given; and the sequence returns [None] as soon as one of
    its parsers does, after the ones before it succeeded. *)
Theorem seq_tuple (ps : list Parser) (fuel : nat) (s : Input) :
  seq (List.map OParser ps) = Ret (seq_parse ps)
  /\ (forall v c,
        seq_parse ps fuel s = Ret (ROk v c) ->
        exists xs, v = VTuple xs /\ List.length xs = List.length ps)
  /\ seq_parse [] fuel s = Ret (ROk (VTuple []) s)
  /\ (forall qs p ps' xs c,
        ps = (qs ++ p :: ps')%list ->
        seq_parse qs fuel s = Ret (ROk (VTuple xs) c) ->
        p fuel c = Ret RNone ->
        seq_parse ps fuel s = Ret RNone).
Proof.
  split; [| split; [| split; [reflexivity |]]].
  - unfold seq. rewrite (map_parser_OParser (fun p => p)).
    now rewrite map_id.
  - intros v c H. apply seq_loop_length in H. exact H.
  - intros qs p ps' xs c -> Hqs Hp. unfold seq_parse in *.
    revert s Hqs. generalize (@nil value).
    induction qs as [|q qs IH]; intros acc s Hqs; simpl in *.
    + injection Hqs as _ <-. now rewrite Hp.
    + destruct (q fuel s) as [[| |x s1]| |]; simpl in *;
        try discriminate. eapply IH; eauto.
Qed.

Lemma seq_tuple_witness :
  seq_parse [tag "x"; tag "y"; tag "z"] 0%nat (mkInput "xyw" 0) = Ret RNone.
Proof.
  destruct (seq_tuple [tag "x"; tag "y"; tag "z"] 0%nat (mkInput "xyw" 0))
    as (_ & _ & _ & H).
  apply (H [tag "x"; tag "y"] (tag "z") []
           [VStr "x"; VStr "y"] (mkInput "xyw" 2));
    reflexivity.
Defined.

Lemma map_parser_repeat (p : Parser) (n : nat) :
  map_parser (repeat (OParser p) n) = Ret (repeat p n).
Proof. induction n; simpl; [reflexivity | now rewrite IHn]. Qed.

(** X11.  [p ** n] is refused with [ValueError] for a negative [n] and
    with [TypeError] for an [n] that is no integer; for [n >= 0] it is the
    sequence of [n] copies of [p], whose value is a tuple of [n] values,
    and [p ** 0] always succeeds with the empty tuple and the cursor it was
    given.  [True] and [False] count as 1 and 0. *)
Theorem pow_repeat (p : Parser) (fuel : nat) (s : Input) :
  (forall z, z < 0 -> Parser__pow__ p (VInt z) = Raise ValueError)
  /\ Parser__pow__ p VNone = Raise TypeError
  /\ (forall t, Parser__pow__ p (VStr t) = Raise TypeError)
  /\ (forall l, Parser__pow__ p (VTuple l) = Raise TypeError)
  /\ (forall z,
        0 <= z ->
        Parser__pow__ p (VInt z) = Ret (seq_parse (repeat p (Z.to_nat z)))
        /\ forall v c,
             seq_parse (repeat p (Z.to_nat z)) fuel s = Ret (ROk v c) ->
             exists xs, v = VTuple xs /\ Z.of_nat (List.length xs) = z)
  /\ (exists q, Parser__pow__ p (VInt 0) = Ret q
                /\ q fuel s = Ret (ROk (VTuple []) s))
  /\ Parser__pow__ p (VBool true) = Parser__pow__ p (VInt 1)
  /\ Parser__pow__ p (VBool false) = Parser__pow__ p (VInt 0).
Proof.
  split; [| split; [reflexivity | split; [reflexivity |
              split; [reflexivity | split; [| split]]]]].
  - intros z Hz. simpl. destruct (Z.geb_spec z 0); [lia | reflexivity].
  - intros z Hz. simpl. destruct (Z.geb_spec z 0); [| lia].
    unfold seq. rewrite map_parser_repeat. split; [reflexivity |].
    intros v c Hv. apply seq_loop_length in Hv.
    destruct Hv as (xs & -> & Hl). exists xs. split; [reflexivity |].
    rewrite Hl, repeat_length. lia.
  - eexists. split; reflexivity.
  - split; reflexivity.
Qed.

Lemma pow_repeat_witness :
  Parser__pow__ (tag "x") (VInt (-1)) = Raise ValueError
  /\ Parser__pow__ (tag "x") (VInt 2)
     = Ret (seq_parse (repeat (tag "x") (Z.to_nat 2))).
Proof.
  destruct (pow_repeat (tag "x") 0%nat (mkInput "xx" 0))
    as (H1 & _ & _ & _ & H2 & _).
  split; [apply H1; lia | apply H2; lia].
Defined.

(** X12.  The sequence of two parsers is their product: [seq(a, b)] and
    [a * b] return the same, as long as neither parser returns the [False]
    of a [negate], on which [seq] raises and [a * b] fails. *)
Theorem seq_pair_is_mul (a b : Parser) (fuel : nat) (s : Input) :
  a fuel s <> Ret RFalse ->
  (forall x s1, a fuel s = Ret (ROk x s1) -> b fuel s1 <> Ret RFalse) ->
  seq_parse [a; b] fuel s = mul_parse a b fuel s.
Proof.
  intros Ha Hb. unfold seq_parse, mul_parse. simpl.
  destruct (a fuel s) as [[| |x s1]| |] eqn:E; simpl; try reflexivity;
    [congruence |].
  specialize (Hb _ _ eq_refl).
  destruct (b fuel s1) as [[| |y s2]| |]; simpl; try reflexivity.
  congruence.
Qed.

Lemma seq_pair_is_mul_witness :
  seq_parse [tag "x"; tag "y"] 0%nat (mkInput "xy" 0)
  = mul_parse (tag "x") (tag "y") 0%nat (mkInput "xy" 0).
Proof.
  apply seq_pair_is_mul.
  - vm_compute. discriminate.
  - intros x s1 H. unfold tag. destruct (String.eqb _ _); discriminate.
Defined.

(* ================================================================== *)
(** ** Projections *)

(** X13.  [a << b] and [a >> b] succeed exactly when [a * b] does, with
    the value of [a] (of [b]) and the cursor of the product; the index
    they take of the pair is never out of range, so they raise only what
    the product raises. *)
Theorem shift_projects (a b : Parser) (fuel : nat) (s : Input) :
  Parser__lshift__ a (OParser b) = Ret (Parser_left (mul_parse a b))
  /\ Parser__rshift__ a (OParser b) = Ret (Parser_right (mul_parse a b))
  /\ (forall v c,
        mul_parse a b fuel s = Ret (ROk v c) ->
        exists x y,
          v = VTuple [x; y]
          /\ Parser_left (mul_parse a b) fuel s = Ret (ROk x c)
          /\ Parser_right (mul_parse a b) fuel s = Ret (ROk y c))
  /\ (is_success (Parser_left (mul_parse a b) fuel s)
      <-> is_success (mul_parse a b fuel s))
  /\ (is_success (Parser_right (mul_parse a b) fuel s)
      <-> is_success (mul_parse a b fuel s))
  /\ (forall e,
        (Parser_left (mul_parse a b) fuel s = Raise e
         <-> mul_parse a b fuel s = Raise e)
        /\ (Parser_right (mul_parse a b) fuel s = Raise e
            <-> mul_parse a b fuel s = Raise e)).
Proof.
  split; [reflexivity |]. split; [reflexivity |].
  unfold Parser_left, Parser_right, Parser_index, Parser_map, mul_parse,
    is_success.
  destruct (a fuel s) as [[| |x s1]| |]; simpl;
    try (repeat split; intros; try discriminate;
         try (destruct H as (? & ? & ?); discriminate); assumption).
  destruct (b fuel s1) as [[| |y s2]| |]; simpl;
    try (repeat split; intros; try discriminate;
         try (destruct H as (? & ? & ?); discriminate); assumption).
  repeat split; intros; try discriminate; eauto.
  injection H as <- <-. eauto.
Qed.

(** X14.  [index(i)] takes the item [i] of a tuple value, counting from
    the end for a negative [i]; an index outside the tuple raises
    [IndexError] when the text is parsed, and a value that has no items
    ([None], a span) raises [TypeError]. *)
Theorem index_bounds (p : Parser) (i : Z) (fuel : nat) (s c : Input)
    (v : value) :
  p fuel s = Ret (ROk v c) ->
  (forall l,
     v = VTuple l ->
     (0 <= i < Z.of_nat (List.length l) ->
      exists x,
        nth_error l (Z.to_nat i) = Some x
        /\ Parser_index p i fuel s = Ret (ROk x c))
     /\ (- Z.of_nat (List.length l) <= i < 0 ->
         exists x,
           nth_error l (Z.to_nat (i + Z.of_nat (List.length l))) = Some x
           /\ Parser_index p i fuel s = Ret (ROk x c))
     /\ (i < - Z.of_nat (List.length l) \/ Z.of_nat (List.length l) <= i ->
         Parser_index p i fuel s = Raise IndexError))
  /\ (v = VNone -> Parser_index p i fuel s = Raise TypeError)
  /\ (forall sp, v = VSpan sp -> Parser_index p i fuel s = Raise TypeError).
Proof.
  intros Hp. unfold Parser_index, Parser_map. rewrite Hp. simpl.
  split; [| split; [intros -> | intros sp ->]; reflexivity].
  intros l ->. simpl. unfold seq_item.
  set (n := Z.of_nat (List.length l)).
  repeat split.
  - intros Hi. destruct (Z.ltb_spec i 0); [lia |].
    destruct (Z.leb_spec 0 i); [| lia].
    destruct (Z.ltb_spec i n); [| lia]. simpl.
    destruct (nth_error l (Z.to_nat i)) as [x|] eqn:E; [eauto |].
    apply nth_error_None in E. lia.
  - intros Hi. destruct (Z.ltb_spec i 0); [| lia].
    destruct (Z.leb_spec 0 (i + n)); [| lia].
    destruct (Z.ltb_spec (i + n) n); [| lia]. simpl.
    destruct (nth_error l (Z.to_nat (i + n))) as [x|] eqn:E; [eauto |].
    apply nth_error_None in E. lia.
  - intros Hi. destruct (Z.ltb_spec i 0).
    + destruct (Z.leb_spec 0 (i + n)); [| reflexivity].
      destruct (Z.ltb_spec (i + n) n); [| reflexivity]. lia.
    + destruct (Z.leb_spec 0 i); [| reflexivity].
      destruct (Z.ltb_spec i n); [| reflexivity]. lia.
Qed.

Lemma index_bounds_witness :
  Parser_index (mul_parse (tag "x") (tag "y")) (-1) 0%nat (mkInput "xy" 0)
  = Ret (ROk (VStr "y") (mkInput "xy" 2))
  /\ Parser_index (mul_parse (tag "x") (tag "y")) 2 0%nat (mkInput "xy" 0)
     = Raise IndexError
  /\ Parser_index (Parser_optional (tag "x")) 0 0%nat (mkInput "y" 0)
     = Raise TypeError.
Proof.
  split; [| split].
  - destruct (@index_bounds (mul_parse (tag "x") (tag "y")) (-1) 0%nat
                (mkInput "xy" 0) (mkInput "xy" 2)
                (VTuple [VStr "x"; VStr "y"]) eq_refl) as (H & _).
    destruct (H _ eq_refl) as (_ & H2 & _).
    destruct H2 as (x & Hx & E); [simpl; lia |].
    simpl in Hx. injection Hx as <-. exact E.
  - destruct (@index_bounds (mul_parse (tag "x") (tag "y")) 2 0%nat
                (mkInput "xy" 0) (mkInput "xy" 2)
                (VTuple [VStr "x"; VStr "y"]) eq_refl) as (H & _).
    destruct (H _ eq_refl) as (_ & _ & H3). apply H3. simpl; lia.
  - destruct (@index_bounds (Parser_optional (tag "x")) 0 0%nat
                (mkInput "y" 0) (mkInput "y" 0) VNone eq_refl)
      as (_ & H & _).
    apply H. reflexivity.
Defined.

(* ================================================================== *)
(** ** spanned and stringed *)

(** X15.  When [p] succeeds, [spanned p] pairs its value with the span
    from the cursor given to the cursor returned, [stringed p] pairs it
    with the text of that span, and [span] and [string] keep the span and
    the text alone; the text is what [curr] reads over the distance
    covered.  For a parser built from the library the span is over the
    text of the cursor returned and satisfies [start <= end]. *)
Theorem spanned_stringed (p : Parser) (fuel : nat) (s c : Input)
    (x : value) :
  p fuel s = Ret (ROk x c) ->
  Parser_spanned p fuel s
  = Ret (ROk (VTuple [x; VSpan (mkSpan (Input_s s) (Input_i s) (Input_i c))])
             c)
  /\ Parser_stringed p fuel s
     = Ret (ROk (VTuple
                   [x; VStr (Span_content
                               (mkSpan (Input_s s) (Input_i s) (Input_i c)))])
                c)
  /\ Parser_span p fuel s
     = Ret (ROk (VSpan (mkSpan (Input_s s) (Input_i s) (Input_i c))) c)
  /\ Parser_string p fuel s
     = Ret (ROk (VStr (Span_content
                         (mkSpan (Input_s s) (Input_i s) (Input_i c)))) c)
  /\ Span_content (mkSpan (Input_s s) (Input_i s) (Input_i c))
     = Input_curr s (Input_i c - Input_i s)
  /\ (built p ->
      Span_ok (mkSpan (Input_s s) (Input_i s) (Input_i c))
      /\ Input_s s = Input_s c).
Proof.
  intros Hp.
  unfold Parser_span, Parser_string, Parser_right, Parser_index, Parser_map,
    Parser_spanned, Parser_stringed.
  rewrite Hp. simpl. repeat (split; [reflexivity |]). split.
  - unfold Span_content, Input_curr. simpl. f_equal. lia.
  - intros Hb. destruct (core_advances (built_core Hb) _ _ Hp) as [Hs Hi].
    unfold Span_ok. simpl. auto.
Qed.

Lemma spanned_stringed_witness :
  Parser_string (mul_parse (tag "x") (tag "y")) 0%nat (mkInput "xyz" 0)
  = Ret (ROk (VStr "xy") (mkInput "xyz" 2)).
Proof.
  destruct (@spanned_stringed (mul_parse (tag "x") (tag "y")) 0%nat
              (mkInput "xyz" 0) (mkInput "xyz" 2)
              (VTuple [VStr "x"; VStr "y"]) eq_refl)
    as (_ & _ & _ & H & _).
  exact H.
Defined.

(** X16.  The text that [tag m] consumes is [m]: where [tag m] succeeds,
    [string] of it returns [m] itself and [span] of it a span whose
    content is [m]. *)
Theorem tag_string (m : string) (fuel : nat) (s c : Input) (x : value) :
  tag m fuel s = Ret (ROk x c) ->
  Parser_string (tag m) fuel s = Ret (ROk (VStr m) c)
  /\ exists sp,
       Parser_span (tag m) fuel s = Ret (ROk (VSpan sp) c)
       /\ Span_content sp = m.
Proof.
  intros H.
  unfold Parser_span, Parser_string, Parser_right, Parser_index, Parser_map,
    Parser_spanned, Parser_stringed.
  rewrite H. simpl. unfold tag in H.
  destruct (String.eqb_spec (Input_curr s (len m)) m) as [E | E];
    [| discriminate].
  injection H as _ <-.
  assert (Hc : Span_content
                 (mkSpan (Input_s s) (Input_i s)
                    (Input_i (Input_advance s (len m)))) = m)
    by exact E.
  rewrite Hc. split; [reflexivity |]. eexists. split; [reflexivity | exact Hc].
Qed.

Lemma tag_string_witness :
  Parser_string (tag "let") 0%nat (mkInput "a let b" 2)
  = Ret (ROk (VStr "let") (mkInput "a let b" 5)).
Proof.
  exact (proj1 (@tag_string "let" 0%nat (mkInput "a let b" 2)
                  (mkInput "a let b" 5) (VStr "let") eq_refl)).
Defined.

(* ================================================================== *)
(** ** map *)

(** X17.  Mapping twice is mapping once with the two functions chained
    (the second is not called when the first raises); a mapped parser
    consumes what the parser consumes, and fails when it fails. *)
Theorem map_map (p : Parser) (f g : pyfun) (fuel : nat) (s : Input) :
  Parser_map (Parser_map p f) g fuel s
  = Parser_map p (fun x => y <- f x ;; g y) fuel s
  /\ (forall y c,
        Parser_map p f fuel s = Ret (ROk y c) ->
        exists x, p fuel s = Ret (ROk x c) /\ f x = Ret y)
  /\ (is_failure (p fuel s) -> Parser_map p f fuel s = Ret RNone).
Proof.
  unfold Parser_map, is_failure.
  destruct (p fuel s) as [[| |x s1]| |]; simpl;
    repeat split; try discriminate; try reflexivity;
    try (intros [? | ?]; discriminate).
  - destruct (f x); reflexivity.
  - intros y c H. destruct (f x) as [y'| |] eqn:E; simpl in H;
      try discriminate.
    injection H as <- <-. eauto.
Qed.

Lemma map_map_witness :
  Parser_map (tag "x") py_len 0%nat (mkInput "y" 0) = Ret RNone.
Proof.
  destruct (map_map (tag "x") py_len py_len 0%nat (mkInput "y" 0))
    as (_ & _ & H).
  apply H. left. reflexivity.
Defined.

(* ================================================================== *)
(** ** Lookahead *)

(** X18.  Negating twice is looking ahead: [negate (negate p)] succeeds
    exactly when [p] succeeds, and then returns [None] with the cursor it
    was given, so that nothing of what [p] matched is consumed. *)
Theorem negate_negate (p : Parser) (fuel : nat) (s : Input) :
  (is_success (Parser_negate (Parser_negate p) fuel s)
   <-> is_success (p fuel s))
  /\ (is_success (p fuel s) ->
      Parser_negate (Parser_negate p) fuel s = Ret (ROk VNone s))
  /\ (is_failure (p fuel s) ->
      Parser_negate (Parser_negate p) fuel s = Ret RFalse).
Proof.
  unfold Parser_negate, is_success, is_failure.
  destruct (p fuel s) as [[| |x c]| |]; simpl; repeat split;
    try (intros (? & ? & ?)); try (intros [? | ?]); intros;
    try discriminate; try congruence; eauto.
Qed.

Lemma negate_negate_witness :
  Parser_negate (Parser_negate (tag "x")) 0%nat (mkInput "xy" 0)
  = Ret (ROk VNone (mkInput "xy" 0)).
Proof.
  destruct (negate_negate (tag "x") 0%nat (mkInput "xy" 0)) as (_ & H & _).
  apply H. do 2 eexists. reflexivity.
Defined.

(* ================================================================== *)
(** ** seqspanned *)

(** X19.  [seqspanned] succeeds exactly when [seqws] does, at the same
    cursor, and puts before the values of the elements the span from the
    cursor given to the cursor returned: the span covers the whitespace
    skipped before the first element and after the last one. *)
Theorem seqspanned_span (os : list operand) (ps : list Parser) (fuel : nat)
    (s : Input) :
  map_parser os = Ret ps ->
  exists q q',
    seqspanned os = Ret q /\ seqws os = Ret q'
    /\ forall v c,
         q fuel s = Ret (ROk v c)
         <-> exists xs,
               q' fuel s = Ret (ROk (VTuple xs) c)
               /\ v = VTuple
                        (VSpan (mkSpan (Input_s s) (Input_i s) (Input_i c))
                         :: xs).
Proof.
  intros Hps. unfold seqspanned. rewrite (seqws_eval _ Hps). simpl.
  do 2 eexists. split; [reflexivity |]. split; [reflexivity |].
  intros v c. unfold Parser_map at 1. unfold Parser_spanned.
  set (q' := Parser_right _).
  assert (Hq : forall y c',
             q' fuel s = Ret (ROk y c') -> exists xs, y = VTuple xs).
  { intros y c' H. unfold q', Parser_right, Parser_index, Parser_map,
      mul_parse, seq_parse in H.
    destruct (ws fuel s) as [[| |l s0]| |]; simpl in H; try discriminate.
    destruct (seq_loop _ fuel [] s0) as [[| |z s1]| |] eqn:E; simpl in H;
      try discriminate.
    injection H as <- <-. apply seq_loop_length in E.
    destruct E as (xs & -> & _). eauto. }
  destruct (q' fuel s) as [[| |y c']| |] eqn:E; simpl.
  - split; [discriminate | intros (? & ? & _); discriminate].
  - split; [discriminate | intros (? & ? & _); discriminate].
  - destruct (Hq _ _ eq_refl) as (xs & ->). simpl. split.
    + intros H. injection H as <- <-. eauto.
    + intros (xs' & H & ->). injection H as <- <-. reflexivity.
  - split; [discriminate | intros (? & ? & _); discriminate].
  - split; [discriminate | intros (? & ? & _); discriminate].
Qed.

Lemma seqspanned_span_witness :
  exists q,
    seqspanned [OValue (VStr "x"); OValue (VStr "y")] = Ret q
    /\ q 4%nat (mkInput " x y " 0)
       = Ret (ROk (VTuple [VSpan (mkSpan " x y " 0 5); VStr "x"; VStr "y"])
                  (mkInput " x y " 5)).
Proof.
  destruct (@seqspanned_span [OValue (VStr "x"); OValue (VStr "y")]
              [tag "x"; tag "y"] 4%nat (mkInput " x y " 0) eq_refl)
    as (q & q' & Hq & Hq' & H).
  exists q. split; [exact Hq |].
  apply H. exists [VStr "x"; VStr "y"]. split; [| reflexivity].
  rewrite (@seqws_eval [OValue (VStr "x"); OValue (VStr "y")]
             [tag "x"; tag "y"] eq_refl) in Hq'.
  injection Hq' as <-. reflexivity.
Defined.

(* ================================================================== *)
(** ** Separated lists: values and separators *)

Lemma getitem_loop_lengths (f g : Input -> outcome result) :
  forall k xs0 ys0 s xs ys c,
    getitem_loop f g k xs0 ys0 s
    = Ret (ROk (VTuple [VList xs; VList ys]) c) ->
    List.length xs0 = List.length ys0 ->
    (List.length xs = List.length ys /\ is_failure (f c))
    \/ (List.length xs = S (List.length ys) /\ is_failure (g c)).
Proof.
  induction k as [|k IH]; intros xs0 ys0 s xs ys c H Hl; simpl in H;
    [discriminate |].
  destruct (f s) as [[| |x s1]| |] eqn:Ef; simpl in H; try discriminate.
  - injection H as <- <- <-. left. unfold is_failure. auto.
  - injection H as <- <- <-. left. unfold is_failure. auto.
  - destruct (g s1) as [[| |y s2]| |] eqn:Eg; simpl in H; try discriminate.
    + injection H as <- <- <-. right. rewrite length_app. simpl.
      unfold is_failure. split; [lia | auto].
    + injection H as <- <- <-. right. rewrite length_app. simpl.
      unfold is_failure. split; [lia | auto].
    + apply IH in H; [exact H |]. rewrite !length_app. simpl. lia.
Qed.

(** X20.  In what a separated list returns, the separators are as many as
    the values or one fewer: as many when the list stopped because the
    element parser fails at the cursor returned (an empty list, or a
    separator after the last element, which is consumed), one fewer when
    it stopped because the separator parser fails there. *)
Theorem separated_list_lengths (p sep : Parser) (fuel : nat) (s c : Input)
    (xs ys : list value) :
  getitem_parse p sep fuel s = Ret (ROk (VTuple [VList xs; VList ys]) c) ->
  (List.length xs = List.length ys /\ is_failure (p fuel c))
  \/ (List.length xs = S (List.length ys) /\ is_failure (sep fuel c)).
Proof.
  intros H. apply getitem_loop_lengths in H; [exact H | reflexivity].
Qed.

Lemma separated_list_lengths_witness :
  (List.length [VStr "x"; VStr "x"] = List.length [VStr ","; VStr ","]
   /\ is_failure (tag "x" 3%nat (mkInput "x,x," 4)))
  \/ (List.length [VStr "x"; VStr "x"] = S (List.length [VStr ","; VStr ","])
      /\ is_failure (tag "," 3%nat (mkInput "x,x," 4))).
Proof.
  exact (@separated_list_lengths (tag "x") (tag ",") 3%nat
           (mkInput "x,x," 0) (mkInput "x,x," 4)
           [VStr "x"; VStr "x"] [VStr ","; VStr ","] eq_refl).
Defined.

(* ================================================================== *)
(** ** Parsers that never raise *)

Lemma quiet_many0_loop (f : Input -> outcome result) :
  (forall s, quiet (f s)) ->
  forall k xs s, quiet (many0_loop f k xs s).
Proof.
  intros Hf. induction k as [|k IH]; intros xs s; simpl; [exact I |].
  pose proof (Hf s) as Q.
  destruct (f s) as [[| |x s1]| |]; simpl in *; auto.
Qed.

Lemma quiet_getitem_loop (f g : Input -> outcome result) :
  (forall s, quiet (f s)) -> (forall s, quiet (g s)) ->
  forall k xs ys s, quiet (getitem_loop f g k xs ys s).
Proof.
  intros Hf Hg. induction k as [|k IH]; intros xs ys s; simpl; [exact I |].
  pose proof (Hf s) as Q.
  destruct (f s) as [[| |x s1]| |]; simpl in *; auto.
  pose proof (Hg s1) as Q'.
  destruct (g s1) as [[| |y s2]| |]; simpl in *; auto.
Qed.

Ltac quiet_call Hp p :=
  match goal with
  | |- context [p ?fuel ?s] =>
      let Q := fresh "Q" in
      pose proof (Hp fuel s) as Q;
      destruct (p fuel s) as [[| |? ?]| |]; simpl in Q |- *;
      try contradiction; try exact I
  end.

Lemma plain_quiet (p : Parser) :
  plain p -> forall fuel s, quiet (p fuel s).
Proof.
  induction 1 as [m | | f Hf | p q _ Hp _ Hq | p q _ Hp _ Hq
                 | p q _ Hp _ Hq | p q _ Hp _ Hq | xs
                 | xs p ps _ Hp _ Hps | p q _ Hp _ Hq | p f _ Hp Hf
                 | p f _ Hp Hf | p _ Hp | p _ Hp | p _ Hp | p _ Hp
                 | p _ Hp | p _ Hp | p _ Hp];
    intros fuel s.
  - unfold tag. destruct (String.eqb _ _); exact I.
  - unfold one. destruct (Input__bool__ s); exact I.
  - unfold pred, Parser_pred, one. destruct (Input__bool__ s); simpl;
      [| exact I].
    destruct (Hf (Input_curr s 1)) as (y & ->). simpl.
    destruct (truthy y); exact I.
  - unfold add_parse. quiet_call Hp p; apply Hq.
  - unfold mul_parse. quiet_call Hp p. quiet_call Hq q.
  - unfold Parser_left, Parser_index, Parser_map, mul_parse.
    quiet_call Hp p. quiet_call Hq q.
  - unfold Parser_right, Parser_index, Parser_map, mul_parse.
    quiet_call Hp p. quiet_call Hq q.
  - exact I.
  - rewrite seq_from_cons. quiet_call Hp p. apply Hps.
  - unfold getitem_parse. apply quiet_getitem_loop; auto.
  - unfold Parser_map. quiet_call Hp p.
    match goal with
    | |- context [f ?v] => destruct (Hf v) as (y & ->)
    end.
    exact I.
  - unfold Parser_pred. quiet_call Hp p.
    match goal with
    | |- context [f ?v] => destruct (Hf v) as (y & ->)
    end.
    simpl. destruct (truthy y); exact I.
  - unfold Parser_optional. quiet_call Hp p.
  - unfold Parser_many0. apply quiet_many0_loop; auto.
  - unfold Parser_many1, Parser_pred.
    pose proof (quiet_many0_loop (p fuel) (Hp fuel) fuel [] s) as Q.
    fold (Parser_many0 p fuel s) in Q.
    destruct (Parser_many0 p fuel s) as [r| |] eqn:E; simpl in *; auto.
    destruct (many0_shape _ _ _ E) as (xs & c & ->). simpl.
    destruct (negb _); exact I.
  - unfold Parser_spanned. quiet_call Hp p.
  - unfold Parser_stringed. quiet_call Hp p.
  - unfold Parser_span, Parser_right, Parser_index, Parser_map,
      Parser_spanned. quiet_call Hp p.
  - unfold Parser_string, Parser_right, Parser_index, Parser_map,
      Parser_stringed. quiet_call Hp p.
Qed.

Lemma plain_ws : plain ws.
Proof.
  apply plain_many0, plain_pred_fn. intros t. eexists. reflexivity.
Qed.

Lemma plain_seq_from_neg (ps : list Parser) :
  Forall plain ps ->
  forall xs,
    plain (seq_from xs
             (List.map (fun p => Parser_left (mul_parse p ws)) ps)).
Proof.
  induction 1 as [|p ps Hp _ IH]; intros xs; simpl.
  - apply plain_seq_nil.
  - apply plain_seq_cons; [apply plain_left; auto using plain_ws | exact IH].
Qed.

(** X21.  A parser built without [negate], [map_star] and free indexing,
    with user functions that return, never raises and never returns
    [False]: every call returns [None] or a pair, unless its loops run for
    ever.  [ws], [kw m] and the [seqws] of such parsers are of this
    kind. *)
Theorem plain_never_raises :
  (forall p,
     plain p ->
     forall fuel s, (forall e, p fuel s <> Raise e) /\ p fuel s <> Ret RFalse)
  /\ plain ws
  /\ (forall m q, kw m = Ret q -> plain q)
  /\ (forall os ps q,
        map_parser os = Ret ps -> Forall plain ps ->
        seqws os = Ret q -> plain q).
Proof.
  split; [| split; [exact plain_ws | split]].
  - intros p Hp fuel s. pose proof (plain_quiet Hp fuel s) as Q.
    destruct (p fuel s) as [[| |x c]| |]; simpl in Q; try contradiction;
      split; try discriminate; intros e; discriminate.
  - intros m q H. rewrite kw_eval in H. injection H as <-.
    apply plain_right; [exact plain_ws |].
    apply plain_left; [apply plain_span, plain_tag | exact plain_ws].
  - intros os ps q Hps Hall H. rewrite (seqws_eval _ Hps) in H.
    injection H as <-.
    apply plain_right; [exact plain_ws |].
    apply (plain_seq_from_neg Hall).
Qed.

Lemma plain_never_raises_witness :
  exists q,
    kw "let" = Ret q
    /\ q 6%nat (mkInput "  let" 0)
       = Ret (ROk (VSpan (mkSpan "  let" 2 5)) (mkInput "  let" 5))
    /\ (forall e, q 6%nat (mkInput "  let" 0) <> Raise e)
    /\ q 6%nat (mkInput "  let" 0) <> Ret RFalse.
Proof.
  destruct plain_never_raises as (H & _ & Hkw & _).
  eexists. split; [apply kw_eval |]. split; [reflexivity |].
  apply H. apply (Hkw "let"). apply kw_eval.
Defined.

(* ================================================================== *)
(** ** seqws: the whitespace it accepts *)

Lemma seqws_run (os : list operand) (ps : list Parser) (fuel : nat)
    (s : Input) :
  map_parser os = Ret ps ->
  exists q,
    seqws os = Ret q
    /\ forall v c,
         q fuel s = Ret (ROk v c)
         <-> exists l s0 xs,
               ws fuel s = Ret (ROk l s0)
               /\ ws_elements fuel ps s0 xs c
               /\ v = VTuple xs.
Proof.
  intros Hps. eexists. split; [apply (seqws_eval _ Hps) |].
  intros v c. unfold Parser_right, Parser_index, Parser_map, mul_parse.
  unfold seq_parse. split.
  - intros H.
    destruct (ws fuel s) as [[| |l s0]| |]; simpl in H; try discriminate.
    destruct (seq_loop _ fuel [] s0) as [[| |y s1]| |] eqn:E; simpl in H;
      try discriminate.
    injection H as <- <-.
    apply seq_loop_ws_elements_inv in E. destruct E as (xs & -> & Hel).
    exists l, s0, xs. auto.
  - intros (l & s0 & xs & -> & Hel & ->). simpl.
    rewrite (seq_loop_ws_elements Hel). reflexivity.
Qed.

(** Over a run of whitespace of any length, [ws] goes from the start of
    the run to the first position that holds no whitespace. *)
Lemma ws_reaches (fuel : nat) (t : string) (i a : Z) :
  i <= a ->
  all_space t i a ->
  str_isspace (Input_curr (mkInput t a) 1) = false ->
  (Z.to_nat (len t - i) < fuel)%nat ->
  exists l, ws fuel (mkInput t i) = Ret (ROk (VList l) (mkInput t a)).
Proof.
  intros Hia Hall Hend Hk.
  destruct (many0_loop_terminates (space fuel) (space_returns fuel)
              (@space_consumes fuel) [] (mkInput t i) Hk)
    as (l & c & E & _).
  destruct (ws_loop_spec _ _ _ _ E) as (l' & c' & Hr & Hs & Hi & Ha & He).
  injection Hr as <- <-. simpl in *.
  assert (Hc : Input_i c = a).
  { destruct (Z.lt_trichotomy (Input_i c) a) as [Hlt | [Heq | Hgt]];
      [| exact Heq |].
    - specialize (Hall (Input_i c) ltac:(lia)).
      destruct c as [tc ic]. simpl in *. subst tc. congruence.
    - specialize (Ha a ltac:(lia)). congruence. }
  exists l. unfold ws, Parser_many0. rewrite E.
  destruct c as [tc ic]. simpl in *. subst. reflexivity.
Qed.

Lemma spaced_ws_elements (fuel : nat) :
  forall ps s xs s',
    spaced_elements fuel ps s xs s' ->
    Forall advances ps ->
    (Z.to_nat (len (Input_s s) - Input_i s) < fuel)%nat ->
    ws_elements fuel ps s xs s'.
Proof.
  induction 1 as [s | p ps s x s1 b xs s' Hp Hb Hall Hend _ IH];
    intros Hadv Hk.
  - constructor.
  - inversion Hadv as [|? ? Hp' Hps]; subst.
    destruct (Hp' _ _ _ _ Hp) as [Hs Hi].
    destruct (@ws_reaches fuel (Input_s s1) (Input_i s1) b Hb Hall Hend)
      as (l & Hws); [rewrite Hs; lia |].
    assert (Es1 : mkInput (Input_s s1) (Input_i s1) = s1)
      by (destruct s1; reflexivity).
    rewrite Es1 in Hws.
    eapply ws_elements_cons; [exact Hp | exact Hws |].
    apply IH; [exact Hps |]. simpl. rewrite Hs. lia.
Qed.

Lemma ws_spaced_elements (fuel : nat) :
  forall ps s xs s',
    ws_elements fuel ps s xs s' -> spaced_elements fuel ps s xs s'.
Proof.
  induction 1 as [s | p ps s x s1 l s2 xs s' Hp Hws _ IH].
  - constructor.
  - destruct (ws_spec _ _ Hws) as (l' & c & Hr & Hs & Hi & Hall & Hend).
    injection Hr as _ <-.
    assert (Es2 : mkInput (Input_s s1) (Input_i s2) = s2)
      by (destruct s2; simpl in *; congruence).
    eapply spaced_elements_cons with (b := Input_i s2);
      [exact Hp | exact Hi | exact Hall | | ]; rewrite Es2; assumption.
Qed.

(** C8.  [seqws] runs its elements in order and allows whitespace of any
    length before the first element and after each element.  Whenever the
    text holds, from the cursor, whitespace characters (none, or a run of
    any length), then the elements one after the other, each followed by
    whitespace characters (none, or a run of any length), [seqws] succeeds
    with the tuple of the values of the elements and the cursor after the
    last whitespace, given more rounds than the text has characters left;
    and it succeeds on no other text.  On ["x  y  z  "] the sequence of
    the tags [x], [y], [z] returns [("x", "y", "z")] and the cursor at
    offset 9, the end of the text, with all the whitespace consumed. *)
Theorem seqws_skips_whitespace :
  (forall os ps fuel s,
     map_parser os = Ret ps ->
     exists q,
       seqws os = Ret q
       /\ forall v c,
            q fuel s = Ret (ROk v c)
            <-> exists l s0 xs,
                  ws fuel s = Ret (ROk l s0)
                  /\ ws_elements fuel ps s0 xs c
                  /\ v = VTuple xs)
  /\ (forall fuel,
        (3 <= fuel)%nat ->
        exists q,
          seqws [OParser (tag "x"); OParser (tag "y"); OParser (tag "z")]
          = Ret q
          /\ q fuel (mkInput "x  y  z  " 0)
             = Ret (ROk (VTuple [VStr "x"; VStr "y"; VStr "z"])
                        (mkInput "x  y  z  " 9))
          /\ Input_i (mkInput "x  y  z  " 9) = len "x  y  z  ")
  /\ (forall os ps fuel s a xs s',
        map_parser os = Ret ps ->
        Forall advances ps ->
        (Z.to_nat (len (Input_s s) - Input_i s) < fuel)%nat ->
        Input_i s <= a ->
        all_space (Input_s s) (Input_i s) a ->
        str_isspace (Input_curr (mkInput (Input_s s) a) 1) = false ->
        spaced_elements fuel ps (mkInput (Input_s s) a) xs s' ->
        exists q,
          seqws os = Ret q /\ q fuel s = Ret (ROk (VTuple xs) s'))
  /\ (forall os ps fuel s q v c,
        map_parser os = Ret ps ->
        seqws os = Ret q ->
        q fuel s = Ret (ROk v c) ->
        exists a xs,
          Input_i s <= a
          /\ all_space (Input_s s) (Input_i s) a
          /\ str_isspace (Input_curr (mkInput (Input_s s) a) 1) = false
          /\ spaced_elements fuel ps (mkInput (Input_s s) a) xs c
          /\ v = VTuple xs).
Proof.
  split; [exact seqws_run |]. split; [| split].
  - intros fuel Hfuel.
    pose proof (@seqws_eval
                  [OParser (tag "x"); OParser (tag "y"); OParser (tag "z")]
                  [tag "x"; tag "y"; tag "z"] eq_refl) as E.
    eexists. split; [exact E |]. split; [| reflexivity].
    eapply core_monotone; [| exact Hfuel | reflexivity | discriminate].
    eapply core_seqws; [| exact E].
    repeat constructor; apply core_OParser, core_tag.
  - intros os ps fuel s a xs s' Hps Hadv Hk Ha Hall Hend Hel.
    destruct (@seqws_run os ps fuel s Hps) as (q & Hq & Hiff).
    exists q. split; [exact Hq |]. apply Hiff.
    destruct (@ws_reaches fuel (Input_s s) (Input_i s) a Ha Hall Hend Hk)
      as (l & Hws).
    assert (Es : mkInput (Input_s s) (Input_i s) = s)
      by (destruct s; reflexivity).
    rewrite Es in Hws.
    exists (VList l), (mkInput (Input_s s) a), xs.
    split; [exact Hws |]. split; [| reflexivity].
    apply spaced_ws_elements; [exact Hel | exact Hadv |]. simpl. lia.
  - intros os ps fuel s q v c Hps Hq H.
    destruct (@seqws_run os ps fuel s Hps) as (q' & Hq' & Hiff).
    rewrite Hq in Hq'. injection Hq' as <-.
    apply Hiff in H. destruct H as (l & s0 & xs & Hws & Hel & ->).
    destruct (ws_spec _ _ Hws) as (l' & c' & Hr & Hs & Hi & Hall & Hend).
    injection Hr as _ <-.
    assert (Es0 : mkInput (Input_s s) (Input_i s0) = s0)
      by (destruct s0; simpl in *; congruence).
    exists (Input_i s0), xs. rewrite Es0.
    repeat split; auto using ws_spaced_elements.
Qed.

Lemma all_space_nil (t : string) (a : Z) : all_space t a a.
Proof. intros k Hk. lia. Qed.

Lemma all_space_cons (t : string) (a b : Z) :
  str_isspace (Input_curr (mkInput t a) 1) = true ->
  all_space t (a + 1) b ->
  all_space t a b.
Proof.
  intros Ha Hall k Hk. destruct (Z.eq_dec k a) as [-> | Hne];
    [exact Ha | apply Hall; lia].
Qed.

Lemma seqws_skips_whitespace_witness :
  (exists q,
     seqws [OParser (tag "x"); OParser (tag "y"); OParser (tag "z")] = Ret q
     /\ q 3%nat (mkInput "x  y  z  " 0)
        = Ret (ROk (VTuple [VStr "x"; VStr "y"; VStr "z"])
                   (mkInput "x  y  z  " 9))
     /\ Input_i (mkInput "x  y  z  " 9) = len "x  y  z  ")
  /\ (exists q,
        seqws [OParser (tag "x"); OParser (tag "y")] = Ret q
        /\ q 11%nat (mkInput "   x    y " 0)
           = Ret (ROk (VTuple [VStr "x"; VStr "y"])
                      (mkInput "   x    y " 10))).
Proof.
  destruct seqws_skips_whitespace as (_ & H2 & H3 & _).
  split; [exact (H2 3%nat (le_n 3)) |].
  apply (H3 [OParser (tag "x"); OParser (tag "y")] [tag "x"; tag "y"]
            11%nat (mkInput "   x    y " 0) 3
            [VStr "x"; VStr "y"] (mkInput "   x    y " 10)).
  - reflexivity.
  - apply Forall_cons; [apply core_advances, core_tag |].
    apply Forall_cons; [apply core_advances, core_tag | apply Forall_nil].
  - vm_compute. lia.
  - simpl. lia.
  - repeat (apply all_space_cons; [reflexivity |]). apply all_space_nil.
  - reflexivity.
  - eapply spaced_elements_cons with (b := 8);
      [reflexivity | simpl; lia | | reflexivity |].
    + repeat (apply all_space_cons; [reflexivity |]). apply all_space_nil.
    + eapply spaced_elements_cons with (b := 10);
        [reflexivity | simpl; lia | | reflexivity | apply spaced_elements_nil].
      repeat (apply all_space_cons; [reflexivity |]). apply all_space_nil.
Defined.
